(** * cognitive-dashboard: packet capture back end

    A shallow embedding of
    - [backend/app/firewall_enforce.h]: the enforcement engine
      ([SimpleFlowEnforcer]) and its decision structure;
    - [backend/src/sniffer_engine.cpp]: the single-producer/single-consumer
      ring buffer ([ConcurrentRingBuffer]) and the capture engine
      ([capture_loop], [start_capture_engine], [stop_capture_engine],
      [get_write_index]).

    Conventions.  Fixed-width C++ integers are values of [Z] with the
    wrap-around written at each arithmetic operation.  A [std::vector] or a
    raw array is a [list], read and written by index; an access outside the
    array is undefined behaviour in the source and is [None] here.  A
    [std::map] is a [gmap].  Text written to [std::cout] / [std::cerr] is
    not part of any state below and is left out. *)

From Stdlib Require Import ZArith Lia.
From stdpp Require Import base option list gmap strings.

Local Open Scope Z_scope.

(** ** Machine integers *)

Definition SIZE_MAX : Z := 2 ^ 64 - 1.

(** Arithmetic on [size_t] and [uint32_t] is modulo a power of two. *)
Definition wrap_size_t (x : Z) : Z := x mod 2 ^ 64.
Definition wrap_uint32 (x : Z) : Z := x mod 2 ^ 32.

(** Conversion of an unsigned 32-bit value to [int]. *)
Definition to_int32 (x : Z) : Z :=
  let r := x mod 2 ^ 32 in
  if r <? 2 ^ 31 then r else r - 2 ^ 32.

(** Arithmetic on [int]; the operands met below never leave the range, the
    wrap is written out all the same. *)
Definition wrap_int (x : Z) : Z := to_int32 x.

(** ** firewall_enforce.h *)

Module Firewall.

(** [enum class FirewallAction : uint8_t]. *)
Inductive FirewallAction : Type :=
  | PASS
  | DROP
  | REJECT
  | RATE_LIMIT.

#[global] Instance FirewallAction_eq_dec : EqDecision FirewallAction.
Proof. solve_decision. Defined.

(** The enumerators' underlying values. *)
Definition action_code (a : FirewallAction) : Z :=
  match a with
  | PASS => 0
  | DROP => 1
  | REJECT => 2
  | RATE_LIMIT => 3
  end.

(** [struct PacketDecision]. *)
Record PacketDecision : Type := mkDecision {
  action : FirewallAction;
  rule_id : string
}.

(** [using FlowKey = uint64_t]. *)
Definition FlowKey : Type := Z.

(** The private members of [SimpleFlowEnforcer]. *)
Record SimpleFlowEnforcer : Type := mkEnforcer {
  default_action_ : FirewallAction;
  enforced_flows_ : gmap Z FirewallAction
}.

(** A default-constructed engine: [default_action_{PASS}], empty map. *)
Definition new_enforcer : SimpleFlowEnforcer :=
  {| default_action_ := PASS; enforced_flows_ := ∅ |}.

(** [get_decision(packet_data, len)].  [packet_data] is the byte buffer the
    pointer refers to, [len] the [uint16_t] length argument.  The body
    tests the length and then reads [default_action_]; it does not read
    [packet_data] and does not read [enforced_flows_]. *)
Definition get_decision (e : SimpleFlowEnforcer)
    (packet_data : list Byte.byte) (len : Z) : PacketDecision :=
  if 1500 <? len then {| action := DROP; rule_id := "JUMBO_PACKET" |}
  else {| action := default_action_ e; rule_id := "DEFAULT_POLICY" |}.

(** [enforce_flow_policy(flow_id, action)]: [enforced_flows_[flow_id] = action]. *)
Definition enforce_flow_policy (e : SimpleFlowEnforcer)
    (flow_id : FlowKey) (a : FirewallAction) : SimpleFlowEnforcer :=
  {| default_action_ := default_action_ e;
     enforced_flows_ := <[flow_id := a]> (enforced_flows_ e) |}.

Definition get_default_action (e : SimpleFlowEnforcer) : FirewallAction :=
  default_action_ e.

Definition set_default_action (e : SimpleFlowEnforcer)
    (a : FirewallAction) : SimpleFlowEnforcer :=
  {| default_action_ := a; enforced_flows_ := enforced_flows_ e |}.

(** A call of one of the two control-plane mutators. *)
Inductive control_op : Type :=
  | Enforce (flow_id : FlowKey) (a : FirewallAction)
  | SetDefault (a : FirewallAction).

Definition control_call (e : SimpleFlowEnforcer) (op : control_op)
    : SimpleFlowEnforcer :=
  match op with
  | Enforce flow_id a => enforce_flow_policy e flow_id a
  | SetDefault a => set_default_action e a
  end.

(** The engine after a history of control-plane calls, oldest first. *)
Fixpoint control_calls (e : SimpleFlowEnforcer) (ops : list control_op)
    : SimpleFlowEnforcer :=
  match ops with
  | [] => e
  | op :: rest => control_calls (control_call e op) rest
  end.

(** The action of the latest [Enforce] for [f] in a history, if any. *)
Fixpoint last_enforced (f : FlowKey) (ops : list control_op)
    : option FirewallAction :=
  match ops with
  | [] => None
  | op :: rest =>
      match last_enforced f rest with
      | Some a => Some a
      | None =>
          match op with
          | Enforce g a => if decide (g = f) then Some a else None
          | SetDefault _ => None
          end
      end
  end.

(** A history with its [Enforce] calls taken out. *)
Fixpoint without_enforce (ops : list control_op) : list control_op :=
  match ops with
  | [] => []
  | Enforce _ _ :: rest => without_enforce rest
  | SetDefault a :: rest => SetDefault a :: without_enforce rest
  end.

End Firewall.

(** ** sniffer_engine.cpp: the ring buffer *)

Module Ring.

Section RingBuffer.

Context {T : Type}.

(** The members of [ConcurrentRingBuffer<T>].  [capacity_], [head_] and
    [tail_] are [size_t] values. *)
Record ConcurrentRingBuffer : Type := mkRing {
  capacity_ : Z;
  buffer_ : list T;
  head_ : Z;
  tail_ : Z
}.

(** The constructor: [buffer_(capacity)] holds [capacity] value-initialised
    elements ([init] stands for [T()]), both indices are 0. *)
Definition new_ring (init : T) (capacity : Z) : ConcurrentRingBuffer :=
  {| capacity_ := capacity;
     buffer_ := replicate (Z.to_nat capacity) init;
     head_ := 0;
     tail_ := 0 |}.

(** [push(item)].  The result is [None] where the source has undefined
    behaviour: the remainder by a zero capacity, or a write past the end of
    [buffer_].  Otherwise it is the returned [bool] with the buffer after
    the call. *)
Definition push (rb : ConcurrentRingBuffer) (item : T)
    : option (bool * ConcurrentRingBuffer) :=
  let current_tail := tail_ rb in
  if capacity_ rb =? 0 then None
  else
    let next_tail := wrap_size_t (current_tail + 1) mod capacity_ rb in
    if next_tail =? head_ rb then Some (false, rb)
    else if (Z.to_nat current_tail <? length (buffer_ rb))%nat then
      Some (true,
            {| capacity_ := capacity_ rb;
               buffer_ := <[Z.to_nat current_tail := item]> (buffer_ rb);
               head_ := head_ rb;
               tail_ := next_tail |})
    else None.

(** [pop(item)].  [item] is the caller's variable passed by reference; the
    result carries the returned [bool], the variable after the call and the
    buffer after the call.  [None] is undefined behaviour, as for [push]. *)
Definition pop (rb : ConcurrentRingBuffer) (item : T)
    : option (bool * T * ConcurrentRingBuffer) :=
  let current_head := head_ rb in
  if current_head =? tail_ rb then Some (false, item, rb)
  else
    match buffer_ rb !! Z.to_nat current_head with
    | None => None
    | Some x =>
        if capacity_ rb =? 0 then None
        else
          Some (true, x,
                {| capacity_ := capacity_ rb;
                   buffer_ := buffer_ rb;
                   head_ := wrap_size_t (current_head + 1) mod capacity_ rb;
                   tail_ := tail_ rb |})
    end.

(** Consecutive [push] calls, one per item, with the returned values in
    call order. *)
Fixpoint push_all (rb : ConcurrentRingBuffer) (items : list T)
    : option (list bool * ConcurrentRingBuffer) :=
  match items with
  | [] => Some ([], rb)
  | x :: rest =>
      '(ok, rb1) ← push rb x;
      '(oks, rb2) ← push_all rb1 rest;
      Some (ok :: oks, rb2)
  end.

(** [n] consecutive [pop] calls into the same variable, with each call's
    returned value and the variable's content after it. *)
Fixpoint pop_n (n : nat) (rb : ConcurrentRingBuffer) (item : T)
    : option (list (bool * T) * ConcurrentRingBuffer) :=
  match n with
  | O => Some ([], rb)
  | S k =>
      '(ok, item1, rb1) ← pop rb item;
      '(res, rb2) ← pop_n k rb1 item1;
      Some ((ok, item1) :: res, rb2)
  end.

(** The class invariant kept by the constructor, [push] and [pop], for a
    buffer constructed with a capacity that is not zero. *)
Definition ring_wf (rb : ConcurrentRingBuffer) : Prop :=
  1 <= capacity_ rb <= SIZE_MAX
  /\ length (buffer_ rb) = Z.to_nat (capacity_ rb)
  /\ 0 <= head_ rb < capacity_ rb
  /\ 0 <= tail_ rb < capacity_ rb.

(** The empty buffer: read and write positions coincide. *)
Definition ring_empty (rb : ConcurrentRingBuffer) : Prop :=
  head_ rb = tail_ rb.

(** [queue_of rb q]: the unread records of [rb], oldest first, are [q].
    They sit in the slots [head_], [head_ + 1], ... taken modulo the
    capacity, and [tail_] is the slot after the last one. *)
Definition queue_of (rb : ConcurrentRingBuffer) (q : list T) : Prop :=
  ring_wf rb
  /\ Z.of_nat (length q) < capacity_ rb
  /\ tail_ rb = (head_ rb + Z.of_nat (length q)) mod capacity_ rb
  /\ forall (j : nat) (x : T),
       q !! j = Some x ->
       buffer_ rb !! Z.to_nat ((head_ rb + Z.of_nat j) mod capacity_ rb) = Some x.

(** A call on the buffer, and what it hands back: the returned [bool], and
    for [pop] the caller's variable after the call. *)
Inductive ring_call : Type :=
  | CallPush (x : T)
  | CallPop.

Inductive ring_ret : Type :=
  | RetPush (ok : bool)
  | RetPop (ok : bool) (item : T).

(** Any sequence of [push] and [pop] calls made one after the other, the
    pops all reading into the same variable. *)
Fixpoint ring_calls (rb : ConcurrentRingBuffer) (item : T)
    (calls : list ring_call)
    : option (list ring_ret * T * ConcurrentRingBuffer) :=
  match calls with
  | [] => Some ([], item, rb)
  | CallPush x :: rest =>
      '(ok, rb1) ← push rb x;
      '(rets, item2, rb2) ← ring_calls rb1 item rest;
      Some (RetPush ok :: rets, item2, rb2)
  | CallPop :: rest =>
      '(ok, item1, rb1) ← pop rb item;
      '(rets, item2, rb2) ← ring_calls rb1 item1 rest;
      Some (RetPop ok item1 :: rets, item2, rb2)
  end.

(** The reference the buffer is compared with: a first-in first-out list
    that takes at most [cap - 1] records. *)
Definition fifo_call (cap : Z) (q : list T) (item : T) (c : ring_call)
    : ring_ret * T * list T :=
  match c with
  | CallPush x =>
      if Z.of_nat (length q) <? cap - 1 then (RetPush true, item, q ++ [x])
      else (RetPush false, item, q)
  | CallPop =>
      match q with
      | [] => (RetPop false item, item, q)
      | y :: q' => (RetPop true y, y, q')
      end
  end.

Fixpoint fifo_calls (cap : Z) (q : list T) (item : T)
    (calls : list ring_call) : list ring_ret * T * list T :=
  match calls with
  | [] => ([], item, q)
  | c :: rest =>
      let '(r, item1, q1) := fifo_call cap q item c in
      let '(rets, item2, q2) := fifo_calls cap q1 item1 rest in
      (r :: rets, item2, q2)
  end.

End RingBuffer.

Arguments ConcurrentRingBuffer : clear implicits.
Arguments ring_call : clear implicits.
Arguments ring_ret : clear implicits.

End Ring.

(** ** sniffer_engine.cpp: the capture engine *)

Module Sniffer.

Definition MAX_BUFFER_SLOTS : Z := 1024.

(** [C_PacketData].  [length] and [flow_hash] are [int].  The [double]
    field [timestamp] is always the quotient of a microsecond count by
    [1000000.0]; the record keeps that count. *)
Record C_PacketData : Type := mkPacketData {
  data : list Z;
  length : Z;
  timestamp : Z;
  flow_hash : Z;
  is_alert : bool
}.

(** What one loop iteration takes from outside the program: the system
    clock in microseconds and the draw from [distrib(gen)]. *)
Record Sample : Type := mkSample {
  now_us : Z;
  drawn_length : Z
}.

(** A [std::thread] handle, as far as the engine uses it. *)
Record thread : Type := mkThread {
  joinable : bool
}.

(** A default-constructed handle owns no thread. *)
Definition no_thread : thread := {| joinable := false |}.

(** A handle constructed on a function owns the started thread. *)
Definition started_thread : thread := {| joinable := true |}.

(** [detach()]: the handle gives the thread up and owns none afterwards. *)
Definition detach (t : thread) : thread := {| joinable := false |}.

(** One execution of [capture_loop]: its argument, its local variables and
    whether it has returned. *)
Record Worker : Type := mkWorker {
  interface_name : string;
  local_write_index : Z;
  flow_counter : Z;
  finished : bool
}.

(** The globals of the engine, and the capture loops launched so far, in
    launch order.  [g_shared_buffer] is the pointer together with the array
    it points to; the null pointer is [None]. *)
Record Engine : Type := mkEngine {
  g_stop_capture : bool;
  g_write_index : Z;
  g_shared_buffer : option (list C_PacketData);
  g_capture_thread : thread;
  workers : list Worker
}.

(** The globals as initialised at load time. *)
Definition init_engine : Engine :=
  {| g_stop_capture := false;
     g_write_index := 0;
     g_shared_buffer := None;
     g_capture_thread := no_thread;
     workers := [] |}.

(** The local variables of [capture_loop] at its entry. *)
Definition new_worker (name : string) : Worker :=
  {| interface_name := name;
     local_write_index := 0;
     flow_counter := 0;
     finished := false |}.

(** The four assignments to [slot]. *)
Definition fill_slot (slot : C_PacketData) (s : Sample) (counter : Z)
    : C_PacketData :=
  {| data := data slot;
     length := drawn_length s;
     timestamp := now_us s;
     flow_hash := to_int32 counter;
     is_alert := counter mod 50 =? 0 |}.

(** The body of the [while] loop of [capture_loop], run by worker [w] on
    the globals [g].  With a null [g_shared_buffer] the body only sleeps.
    Otherwise it fills the slot at [local_write_index], stores the next
    index into [g_write_index] and keeps it as the new local index.  [None]
    is an access outside the shared array. *)
Definition capture_loop_body (s : Sample) (w : Worker) (g : Engine)
    : option (Worker * Engine) :=
  match g_shared_buffer g with
  | None => Some (w, g)
  | Some mem =>
      let i := local_write_index w in
      if 0 <=? i then
        match mem !! Z.to_nat i with
        | None => None
        | Some slot =>
            let counter := wrap_uint32 (flow_counter w + 1) in
            let next_index := Z.rem (wrap_int (i + 1)) MAX_BUFFER_SLOTS in
            Some ({| interface_name := interface_name w;
                     local_write_index := next_index;
                     flow_counter := counter;
                     finished := finished w |},
                  {| g_stop_capture := g_stop_capture g;
                     g_write_index := next_index;
                     g_shared_buffer :=
                       Some (<[Z.to_nat i := fill_slot slot s counter]> mem);
                     g_capture_thread := g_capture_thread g;
                     workers := workers g |})
        end
      else None
  end.

(** One turn of worker [w]: the test of the [while] condition and, when the
    stop flag is clear, one run of the body.  A worker that has seen the
    flag set leaves the loop and returns. *)
Definition capture_loop_turn (s : Sample) (w : Worker) (g : Engine)
    : option (Worker * Engine) :=
  if finished w then Some (w, g)
  else if g_stop_capture g then
    Some ({| interface_name := interface_name w;
             local_write_index := local_write_index w;
             flow_counter := flow_counter w;
             finished := true |}, g)
  else capture_loop_body s w g.

(** [start_capture_engine(interface_name, buffer)] with the returned status
    code.  [launch_ok] tells whether the [std::thread] constructor succeeds;
    when it throws, the [catch] returns 2. *)
Definition start_capture_engine (launch_ok : bool) (name : string)
    (buffer : option (list C_PacketData)) (g : Engine) : Z * Engine :=
  if joinable (g_capture_thread g) then (1, g)
  else
    let g1 := {| g_stop_capture := false;
                 g_write_index := g_write_index g;
                 g_shared_buffer := buffer;
                 g_capture_thread := g_capture_thread g;
                 workers := workers g |} in
    if launch_ok then
      let g2 := {| g_stop_capture := g_stop_capture g1;
                   g_write_index := g_write_index g1;
                   g_shared_buffer := g_shared_buffer g1;
                   g_capture_thread := started_thread;
                   workers := workers g1 ++ [new_worker name] |} in
      let g3 := {| g_stop_capture := g_stop_capture g2;
                   g_write_index := g_write_index g2;
                   g_shared_buffer := g_shared_buffer g2;
                   g_capture_thread := detach (g_capture_thread g2);
                   workers := workers g2 |} in
      (0, g3)
    else (2, g1).

(** [stop_capture_engine()]. *)
Definition stop_capture_engine (g : Engine) : Z * Engine :=
  (0, {| g_stop_capture := true;
         g_write_index := g_write_index g;
         g_shared_buffer := g_shared_buffer g;
         g_capture_thread := g_capture_thread g;
         workers := workers g |}).

(** [get_write_index()]. *)
Definition get_write_index (g : Engine) : Z := g_write_index g.

(** The producer is running while some capture loop has not returned. *)
Definition running (g : Engine) : bool :=
  existsb (fun w => negb (finished w)) (workers g).

(** The number of capture loops that have not returned. *)
Definition live_loops (g : Engine) : nat :=
  List.length (filter (fun w => finished w = false) (workers g)).

(** What can happen to the engine: a call of one of the two exported
    lifecycle functions, or a turn of the capture loop with index [tid] in
    launch order. *)
Inductive event : Type :=
  | Start (launch_ok : bool) (name : string)
          (buffer : option (list C_PacketData))
  | Stop
  | Turn (tid : nat) (s : Sample).

(** The engine after one event; [None] when a capture loop makes an access
    outside the shared array.  A turn of a loop that was never launched
    changes nothing. *)
Definition step (g : Engine) (ev : event) : option Engine :=
  match ev with
  | Start launch_ok name buffer =>
      Some (snd (start_capture_engine launch_ok name buffer g))
  | Stop => Some (snd (stop_capture_engine g))
  | Turn tid s =>
      match workers g !! tid with
      | None => Some g
      | Some w =>
          '(w', g') ← capture_loop_turn s w g;
          Some {| g_stop_capture := g_stop_capture g';
                  g_write_index := g_write_index g';
                  g_shared_buffer := g_shared_buffer g';
                  g_capture_thread := g_capture_thread g';
                  workers := <[tid := w']> (workers g') |}
      end
  end.

(** The engine after a sequence of events. *)
Fixpoint run (g : Engine) (evs : list event) : option Engine :=
  match evs with
  | [] => Some g
  | ev :: rest => g' ← step g ev; run g' rest
  end.

(** Worker [tid] is about to publish: it has not returned, the stop flag is
    clear and a destination buffer is set. *)
Definition publishes (g : Engine) (tid : nat) : Prop :=
  exists w, workers g !! tid = Some w
            /\ finished w = false
            /\ g_stop_capture g = false
            /\ is_Some (g_shared_buffer g).

(** An event that leaves a null destination pointer null. *)
Definition keeps_null_sink (ev : event) : Prop :=
  match ev with
  | Start _ _ (Some _) => False
  | _ => True
  end.

(** What holds of the indices in every reachable state: the published
    index and every loop's own index are slot numbers, and as long as at
    most one capture loop was ever launched the two agree. *)
Definition index_inv (g : Engine) : Prop :=
  0 <= g_write_index g < MAX_BUFFER_SLOTS
  /\ Forall (fun w => 0 <= local_write_index w < MAX_BUFFER_SLOTS) (workers g)
  /\ match workers g with
     | [] => g_write_index g = 0
     | [w] => local_write_index w = g_write_index g
     | _ => True
     end.



(** Consecutive turns of one capture loop, one per sample. *)
Definition turns (tid : nat) (ss : list Sample) : list event :=
  map (Turn tid) ss.

(** A zero-filled slot and a zero-filled shared array of
    [MAX_BUFFER_SLOTS] slots, as the reading side allocates it. *)
Definition zero_slot : C_PacketData :=
  {| data := replicate 1500 0;
     length := 0;
     timestamp := 0;
     flow_hash := 0;
     is_alert := false |}.

Definition zero_buffer : list C_PacketData :=
  replicate (Z.to_nat MAX_BUFFER_SLOTS) zero_slot.

End Sniffer.

(** * Properties of the enforcement engine *)

Module FirewallSpec.

Import Firewall.

(** The decision never depends on the flow table: recording a policy for a
    flow changes no later decision. *)
Lemma get_decision_after_enforce (e : SimpleFlowEnforcer) (f : FlowKey)
    (a : FirewallAction) (packet_data : list Byte.byte) (len : Z) :
  get_decision (enforce_flow_policy e f a) packet_data len
  = get_decision e packet_data len.
Proof. reflexivity. Qed.

(** The rule tag of a decision is one of the two the body can build. *)
Lemma get_decision_rule_id (e : SimpleFlowEnforcer)
    (packet_data : list Byte.byte) (len : Z) :
  rule_id (get_decision e packet_data len) = "JUMBO_PACKET"
  \/ rule_id (get_decision e packet_data len) = "DEFAULT_POLICY".
Proof.
  unfold get_decision. destruct (1500 <? len); [left | right]; reflexivity.
Qed.

(** C1, evaluated on the code: after [enforce_flow_policy(42, DROP)] on a
    fresh engine (default PASS) the table holds DROP for flow 42, yet the
    decision for every 500-byte packet, whatever its bytes and hence
    whatever flow it belongs to, is [{PASS, "DEFAULT_POLICY"}] and not
    [{DROP, "FLOW_POLICY"}]. *)
Theorem flow_policy_is_not_consulted (packet_data : list Byte.byte) :
  let e := enforce_flow_policy new_enforcer 42 DROP in
  enforced_flows_ e !! 42 = Some DROP
  /\ get_decision e packet_data 500
     = {| action := PASS; rule_id := "DEFAULT_POLICY" |}
  /\ get_decision e packet_data 500
     <> {| action := DROP; rule_id := "FLOW_POLICY" |}.
Proof.
  cbn zeta. split; [| split].
  - unfold enforce_flow_policy. cbn [enforced_flows_].
    apply lookup_insert_eq.
  - reflexivity.
  - unfold get_decision. cbn. intros H. discriminate H.
Qed.

(** C2: a length above 1500 yields [{DROP, "JUMBO_PACKET"}] for every
    engine state (any flow table, any default action) and every packet
    buffer; no other rule is looked at for such a packet. *)
Theorem jumbo_packet_is_dropped (e : SimpleFlowEnforcer)
    (packet_data : list Byte.byte) (len : Z) :
  1500 < len ->
  get_decision e packet_data len
  = {| action := DROP; rule_id := "JUMBO_PACKET" |}.
Proof.
  intros Hlen. unfold get_decision.
  destruct (Z.ltb_spec 1500 len) as [_ | Hle]; [reflexivity | lia].
Qed.

Lemma jumbo_packet_is_dropped_witness :
  1500 < 2000
  /\ get_decision
       (enforce_flow_policy (set_default_action new_enforcer REJECT) 42 PASS)
       [] 2000
     = {| action := DROP; rule_id := "JUMBO_PACKET" |}.
Proof.
  split; [lia |].
  apply (jumbo_packet_is_dropped
           (enforce_flow_policy (set_default_action new_enforcer REJECT) 42 PASS)
           [] 2000).
  lia.
Defined.

(** C3: for a packet of length at most 1500 whose flow (under any way
    [flow_of] of deriving a flow key from the packet) has no entry in the
    flow table, the decision is [{default_action, "DEFAULT_POLICY"}]; the
    default action is PASS on a fresh engine and is whatever
    [set_default_action] stored last. *)
Theorem default_policy_is_the_fallback
    (flow_of : list Byte.byte -> Z -> FlowKey) (e : SimpleFlowEnforcer)
    (packet_data : list Byte.byte) (len : Z) :
  len <= 1500 ->
  enforced_flows_ e !! flow_of packet_data len = None ->
  get_decision e packet_data len
  = {| action := get_default_action e; rule_id := "DEFAULT_POLICY" |}
  /\ get_default_action new_enforcer = PASS
  /\ forall a : FirewallAction,
       get_default_action (set_default_action e a) = a
       /\ get_decision (set_default_action e a) packet_data len
          = {| action := a; rule_id := "DEFAULT_POLICY" |}.
Proof.
  intros Hlen _.
  assert (Hno : (1500 <? len) = false) by (apply Z.ltb_ge; exact Hlen).
  unfold get_decision, get_default_action. rewrite Hno.
  split; [reflexivity |]. split; [reflexivity |].
  intros a. split; reflexivity.
Qed.

Lemma default_policy_is_the_fallback_witness :
  get_decision (enforce_flow_policy new_enforcer 42 DROP) [] 500
  = {| action := PASS; rule_id := "DEFAULT_POLICY" |}.
Proof.
  apply (default_policy_is_the_fallback (fun _ _ => 7)
           (enforce_flow_policy new_enforcer 42 DROP) [] 500).
  - lia.
  - vm_compute. reflexivity.
Defined.

(** C10: [enforce_flow_policy(f, a)] leaves the default action as it was
    and leaves the table entry of every other flow key as it was; the entry
    of [f] itself becomes [a]. *)
Theorem enforce_flow_policy_frame (e : SimpleFlowEnforcer) (f : FlowKey)
    (a : FirewallAction) :
  get_default_action (enforce_flow_policy e f a) = get_default_action e
  /\ (forall g : FlowKey,
        g <> f ->
        enforced_flows_ (enforce_flow_policy e f a) !! g
        = enforced_flows_ e !! g)
  /\ enforced_flows_ (enforce_flow_policy e f a) !! f = Some a.
Proof.
  unfold enforce_flow_policy, get_default_action.
  cbn [default_action_ enforced_flows_].
  split; [reflexivity |]. split.
  - intros g Hg. apply lookup_insert_ne. congruence.
  - apply lookup_insert_eq.
Qed.

Lemma enforce_flow_policy_frame_witness :
  enforced_flows_
    (enforce_flow_policy (enforce_flow_policy new_enforcer 42 DROP) 7 REJECT)
    !! 42
  = Some DROP.
Proof.
  destruct (enforce_flow_policy_frame
              (enforce_flow_policy new_enforcer 42 DROP) 7 REJECT)
    as (_ & Hother & _).
  etrans; [apply (Hother 42); lia |].
  vm_compute. reflexivity.
Defined.

End FirewallSpec.

(** * Properties of the ring buffer *)

Module RingSpec.

Import Ring.

(** ** Index arithmetic *)

Lemma wrap_size_t_small (x : Z) : 0 <= x <= SIZE_MAX -> wrap_size_t x = x.
Proof.
  unfold wrap_size_t, SIZE_MAX. intros Hx. apply Z.mod_small. lia.
Qed.

(** A position moved forward by less than one lap is either not wrapped or
    wrapped exactly once. *)
Lemma mod_add_cases (C h k : Z) :
  0 <= h < C -> 0 <= k < C ->
  ((h + k) mod C = h + k /\ h + k < C)
  \/ ((h + k) mod C = h + k - C /\ C <= h + k).
Proof.
  intros Hh Hk. destruct (Z_lt_le_dec (h + k) C) as [Hlt | Hge].
  - left. split; [apply Z.mod_small; lia | exact Hlt].
  - right. split; [| exact Hge].
    symmetry. apply (Z.mod_unique_pos _ _ 1); lia.
Qed.

Lemma mod_add_inj (C h j k : Z) :
  0 <= h < C -> 0 <= j < C -> 0 <= k < C ->
  (h + j) mod C = (h + k) mod C -> j = k.
Proof.
  intros Hh Hj Hk.
  destruct (mod_add_cases C h j Hh Hj) as [[-> ?] | [-> ?]];
    destruct (mod_add_cases C h k Hh Hk) as [[-> ?] | [-> ?]]; lia.
Qed.

Lemma mod_add_zero (C h : Z) : 0 <= h < C -> (h + 0) mod C = h.
Proof. intros Hh. rewrite Z.add_0_r. apply Z.mod_small. exact Hh. Qed.

Lemma mod_add_succ (C h k : Z) :
  0 < C -> ((h + k) mod C + 1) mod C = (h + (k + 1)) mod C.
Proof.
  intros HC. rewrite Zplus_mod_idemp_l. f_equal. ring.
Qed.

Lemma mod_succ_add (C h k : Z) :
  0 < C -> ((h + 1) mod C + k) mod C = (h + (1 + k)) mod C.
Proof.
  intros HC. rewrite Zplus_mod_idemp_l. f_equal. ring.
Qed.

Section Queue.

Context {T : Type}.
Implicit Types (rb : ConcurrentRingBuffer T) (q : list T) (x item : T).

(** The increment of an index in range does not wrap in [size_t]. *)
Lemma next_index_no_wrap rb (i : Z) :
  ring_wf rb -> 0 <= i < capacity_ rb ->
  wrap_size_t (i + 1) mod capacity_ rb = (i + 1) mod capacity_ rb.
Proof.
  intros (HC & _) Hi. rewrite wrap_size_t_small; [reflexivity | lia].
Qed.

(** ** The constructor *)

Lemma new_ring_wf (init : T) (capacity : Z) :
  1 <= capacity <= SIZE_MAX ->
  ring_wf (new_ring init capacity) /\ ring_empty (new_ring init capacity).
Proof.
  intros HC. unfold ring_wf, ring_empty, new_ring. cbn.
  rewrite length_replicate. repeat split; lia.
Qed.

Lemma empty_queue_of rb : ring_wf rb -> ring_empty rb -> queue_of rb [].
Proof.
  intros Hwf Hempty. pose proof Hwf as (HC & Hlen & Hh & Ht).
  unfold queue_of. cbn [List.length]. repeat split; try lia.
  - rewrite mod_add_zero by lia. symmetry. exact Hempty.
  - intros j x Hj. rewrite lookup_nil in Hj. discriminate Hj.
Qed.

(** ** One call *)

Lemma push_queue_of rb q x :
  queue_of rb q ->
  Z.of_nat (List.length q) < capacity_ rb - 1 ->
  exists rb',
    push rb x = Some (true, rb')
    /\ capacity_ rb' = capacity_ rb
    /\ queue_of rb' (q ++ [x]).
Proof.
  intros (Hwf & Hlt & Htail & Hslots) Hroom.
  pose proof Hwf as (HC & Hlen & Hh & Ht).
  set (C := capacity_ rb) in *.
  set (n := Z.of_nat (List.length q)) in *.
  assert (Hnext : wrap_size_t (tail_ rb + 1) mod C = (head_ rb + (n + 1)) mod C).
  { unfold C. rewrite next_index_no_wrap by (exact Hwf || exact Ht).
    fold C. rewrite Htail. apply mod_add_succ. lia. }
  assert (Hne : (head_ rb + (n + 1)) mod C <> head_ rb).
  { intros Heq. rewrite <- (mod_add_zero C (head_ rb) Hh) in Heq at 2.
    apply mod_add_inj in Heq; lia. }
  eexists. split.
  - unfold push. fold C.
    destruct (Z.eqb_spec C 0) as [? | _]; [lia |].
    cbn zeta. rewrite Hnext.
    destruct (Z.eqb_spec ((head_ rb + (n + 1)) mod C) (head_ rb)) as [? | _];
      [contradiction |].
    destruct (Nat.ltb_spec (Z.to_nat (tail_ rb)) (List.length (buffer_ rb)))
      as [_ | Hout]; [reflexivity | lia].
  - split; [reflexivity |].
    unfold queue_of, ring_wf. cbn [capacity_ buffer_ head_ tail_].
    fold C. rewrite length_insert, length_app. cbn [List.length].
    repeat split; try lia.
    + apply Z.mod_pos_bound. lia.
    + apply Z.mod_pos_bound. lia.
    + f_equal. lia.
    + intros j y Hj.
      destruct (Nat.lt_ge_cases j (List.length q)) as [Hin | Hout].
      * rewrite lookup_app_l in Hj by exact Hin.
        rewrite list_lookup_insert_ne; [apply Hslots; exact Hj |].
        intros Heq. apply Z2Nat.inj in Heq;
          try (apply Z.mod_pos_bound; lia); try lia.
        rewrite Htail in Heq. apply mod_add_inj in Heq; lia.
      * rewrite lookup_app_r in Hj by exact Hout.
        assert (Hjn : j = List.length q).
        { pose proof (lookup_lt_Some _ _ _ Hj) as Hone.
          cbn [List.length] in Hone. lia. }
        subst j. rewrite Nat.sub_diag in Hj. cbn in Hj.
        injection Hj as <-. fold n. rewrite <- Htail.
        apply list_lookup_insert_eq. lia.
Qed.

Lemma push_full rb q x :
  queue_of rb q ->
  Z.of_nat (List.length q) = capacity_ rb - 1 ->
  push rb x = Some (false, rb).
Proof.
  intros (Hwf & Hlt & Htail & Hslots) Hfull.
  pose proof Hwf as (HC & Hlen & Hh & Ht).
  unfold push.
  destruct (Z.eqb_spec (capacity_ rb) 0) as [? | _]; [lia |].
  cbn zeta. rewrite next_index_no_wrap by (exact Hwf || exact Ht).
  rewrite Htail, mod_add_succ by lia.
  replace (head_ rb + (Z.of_nat (List.length q) + 1))
    with (head_ rb + 1 * capacity_ rb) by lia.
  rewrite Z_mod_plus_full, Z.mod_small by lia.
  rewrite Z.eqb_refl. reflexivity.
Qed.

Lemma pop_queue_of rb q x item :
  queue_of rb (x :: q) ->
  exists rb', pop rb item = Some (true, x, rb') /\ queue_of rb' q.
Proof.
  intros (Hwf & Hlt & Htail & Hslots).
  pose proof Hwf as (HC & Hlen & Hh & Ht).
  cbn [List.length] in Hlt, Htail.
  set (C := capacity_ rb) in *.
  set (n := Z.of_nat (List.length q)) in *.
  assert (Hne : head_ rb <> tail_ rb).
  { intros Heq. rewrite Htail in Heq.
    rewrite <- (mod_add_zero C (head_ rb) Hh) in Heq at 1.
    apply mod_add_inj in Heq; lia. }
  assert (Hfront : buffer_ rb !! Z.to_nat (head_ rb) = Some x).
  { specialize (Hslots 0%nat x eq_refl). cbn in Hslots.
    fold C in Hslots. rewrite mod_add_zero in Hslots by exact Hh.
    exact Hslots. }
  assert (Hnext : wrap_size_t (head_ rb + 1) mod C = (head_ rb + 1) mod C).
  { apply next_index_no_wrap; [exact Hwf | exact Hh]. }
  eexists. split.
  - unfold pop. cbn zeta.
    destruct (Z.eqb_spec (head_ rb) (tail_ rb)) as [? | _]; [contradiction |].
    rewrite Hfront. fold C.
    destruct (Z.eqb_spec C 0) as [? | _]; [lia |]. reflexivity.
  - unfold queue_of, ring_wf. cbn [capacity_ buffer_ head_ tail_].
    fold C. fold n. rewrite Hnext.
    repeat split; try lia.
    + apply Z.mod_pos_bound. lia.
    + apply Z.mod_pos_bound. lia.
    + rewrite mod_succ_add by lia. rewrite Htail. f_equal. lia.
    + intros j y Hj. rewrite mod_succ_add by lia.
      specialize (Hslots (S j) y Hj). fold C in Hslots.
      replace (1 + Z.of_nat j) with (Z.of_nat (S j)) by lia.
      exact Hslots.
Qed.

Lemma pop_empty rb item :
  queue_of rb [] -> pop rb item = Some (false, item, rb).
Proof.
  intros (Hwf & _ & Htail & _). pose proof Hwf as (HC & Hlen & Hh & Ht).
  cbn [List.length] in Htail. rewrite mod_add_zero in Htail by exact Hh.
  unfold pop. cbn zeta. rewrite Htail, Z.eqb_refl. reflexivity.
Qed.

(** ** Sequences of calls *)

Lemma push_all_queue_of (xs : list T) : forall rb q,
  queue_of rb q ->
  Z.of_nat (List.length q + List.length xs) < capacity_ rb ->
  exists rb',
    push_all rb xs = Some (replicate (List.length xs) true, rb')
    /\ capacity_ rb' = capacity_ rb
    /\ queue_of rb' (q ++ xs).
Proof.
  induction xs as [| x xs IH]; intros rb q Hq Hroom.
  - exists rb. rewrite app_nil_r. repeat split; [apply Hq ..].
  - cbn [List.length] in Hroom.
    destruct (push_queue_of rb q x Hq) as (rb1 & Hpush & Hcap & Hq1); [lia |].
    destruct (IH rb1 (q ++ [x]) Hq1) as (rb2 & Hrest & Hcap2 & Hq2).
    { rewrite length_app, Hcap. cbn [List.length]. lia. }
    exists rb2. split; [| split].
    + cbn [push_all List.length replicate]. rewrite Hpush. cbn.
      rewrite Hrest. reflexivity.
    + congruence.
    + rewrite <- app_assoc in Hq2. exact Hq2.
Qed.

Lemma pop_n_queue_of (q1 : list T) : forall rb q2 item,
  queue_of rb (q1 ++ q2) ->
  exists rb',
    pop_n (List.length q1) rb item = Some (map (pair true) q1, rb')
    /\ queue_of rb' q2.
Proof.
  induction q1 as [| x q1 IH]; intros rb q2 item Hq.
  - exists rb. split; [reflexivity | exact Hq].
  - destruct (pop_queue_of rb (q1 ++ q2) x item Hq) as (rb1 & Hpop & Hq1).
    destruct (IH rb1 q2 x Hq1) as (rb2 & Hrest & Hq2).
    exists rb2. split; [| exact Hq2].
    cbn [pop_n List.length map]. rewrite Hpop. cbn.
    rewrite Hrest. reflexivity.
Qed.

(** C4: on an empty buffer of capacity C (the constructed one, or any
    later state with nothing unread), C-1 consecutive pushes all return
    true; one more push returns false and leaves the buffer exactly as it
    was (capacity, slots, head and tail); C-1 pops then return the C-1
    pushed records. *)
Theorem push_capacity (rb : ConcurrentRingBuffer T) (xs : list T)
    (x item : T) :
  ring_wf rb ->
  ring_empty rb ->
  Z.of_nat (List.length xs) = capacity_ rb - 1 ->
  exists rb1 rb2,
    push_all rb xs = Some (replicate (List.length xs) true, rb1)
    /\ push rb1 x = Some (false, rb1)
    /\ pop_n (List.length xs) rb1 item = Some (map (pair true) xs, rb2).
Proof.
  intros Hwf Hempty Hlen.
  destruct (push_all_queue_of xs rb [] (empty_queue_of rb Hwf Hempty))
    as (rb1 & Hpush & Hcap & Hq1).
  { cbn [List.length]. lia. }
  cbn [app] in Hq1.
  destruct (pop_n_queue_of xs rb1 [] item) as (rb2 & Hpop & _).
  { rewrite app_nil_r. exact Hq1. }
  exists rb1, rb2. split; [exact Hpush |]. split; [| exact Hpop].
  apply (push_full rb1 xs x Hq1). rewrite Hcap. exact Hlen.
Qed.

(** C5: n pushes [ps] into an empty buffer with n below the capacity all
    succeed; n pops then all succeed and return [ps] in push order; the
    pop after them finds the buffer empty, returns false and leaves the
    caller's variable and the buffer alone. *)
Theorem fifo_order (rb : ConcurrentRingBuffer T) (ps : list T) (item : T) :
  ring_wf rb ->
  ring_empty rb ->
  Z.of_nat (List.length ps) < capacity_ rb ->
  exists rb1 rb2,
    push_all rb ps = Some (replicate (List.length ps) true, rb1)
    /\ pop_n (List.length ps) rb1 item = Some (map (pair true) ps, rb2)
    /\ forall item', pop rb2 item' = Some (false, item', rb2).
Proof.
  intros Hwf Hempty Hlen.
  destruct (push_all_queue_of ps rb [] (empty_queue_of rb Hwf Hempty))
    as (rb1 & Hpush & _ & Hq1).
  { cbn [List.length]. lia. }
  cbn [app] in Hq1.
  destruct (pop_n_queue_of ps rb1 [] item) as (rb2 & Hpop & Hq2).
  { rewrite app_nil_r. exact Hq1. }
  exists rb1, rb2. split; [exact Hpush |]. split; [exact Hpop |].
  intros item'. apply pop_empty. exact Hq2.
Qed.

End Queue.

Lemma push_capacity_witness :
  exists rb1 rb2,
    push_all (new_ring 0 4) [1; 2; 3] = Some ([true; true; true], rb1)
    /\ push rb1 4 = Some (false, rb1)
    /\ pop_n 3 rb1 0 = Some ([(true, 1); (true, 2); (true, 3)], rb2).
Proof.
  apply (push_capacity (new_ring 0 4) [1; 2; 3] 4 0).
  - unfold ring_wf, SIZE_MAX. repeat split; try reflexivity; vm_compute; discriminate.
  - reflexivity.
  - reflexivity.
Defined.

Lemma fifo_order_witness :
  exists rb1 rb2,
    push_all (new_ring 0 4) [7; 8] = Some ([true; true], rb1)
    /\ pop_n 2 rb1 0 = Some ([(true, 7); (true, 8)], rb2)
    /\ forall item', pop rb2 item' = Some (false, item', rb2).
Proof.
  apply (fifo_order (new_ring 0 4) [7; 8] 0).
  - unfold ring_wf, SIZE_MAX. repeat split; try reflexivity; vm_compute; discriminate.
  - reflexivity.
  - cbn. lia.
Defined.

(** The scenario of the specification: capacity 4; pushes of 1, 2, 3
    succeed; the push of 4 fails; a pop returns 1; the push of 4 now
    succeeds; the pops return 2, 3, 4. *)
Example ring_scenario :
  ('(oks, rb1) ← push_all (new_ring 0 4) [1; 2; 3];
   '(full, rb2) ← push rb1 4;
   '(ok1, first, rb3) ← pop rb2 0;
   '(ok4, rb4) ← push rb3 4;
   '(res, _) ← pop_n 3 rb4 first;
   Some (oks, full, (ok1, first), ok4, res))
  = Some ([true; true; true], false, (true, 1), true,
          [(true, 2); (true, 3); (true, 4)]).
Proof. vm_compute. reflexivity. Qed.

End RingSpec.

(** * Properties of the capture engine *)

Module SnifferSpec.

Import Sniffer.

(** ** The thread handle and the start guard *)

(** Whatever the engine has gone through, [g_capture_thread] is never
    joinable when an exported function is entered: the only handle that
    owns a thread is detached inside [start_capture_engine] itself. *)
Lemma start_leaves_handle_detached (launch_ok : bool) (name : string)
    (buffer : option (list C_PacketData)) (g : Engine) :
  joinable (g_capture_thread g) = false ->
  joinable (g_capture_thread (snd (start_capture_engine launch_ok name buffer g)))
  = false.
Proof.
  intros Hj. unfold start_capture_engine. rewrite Hj.
  destruct launch_ok; cbn; [reflexivity | exact Hj].
Qed.

Lemma capture_loop_turn_globals (s : Sample) (w w' : Worker) (g g' : Engine) :
  capture_loop_turn s w g = Some (w', g') ->
  g_capture_thread g' = g_capture_thread g
  /\ g_stop_capture g' = g_stop_capture g
  /\ workers g' = workers g.
Proof.
  unfold capture_loop_turn, capture_loop_body. intros H.
  repeat case_match; simplify_eq; cbn; repeat split; congruence.
Qed.

Lemma step_leaves_handle_detached (g g' : Engine) (ev : event) :
  joinable (g_capture_thread g) = false ->
  step g ev = Some g' ->
  joinable (g_capture_thread g') = false.
Proof.
  intros Hj Hstep. destruct ev as [launch_ok name buffer | | tid s];
    cbn [step] in Hstep.
  - injection Hstep as <-. apply start_leaves_handle_detached. exact Hj.
  - injection Hstep as <-. exact Hj.
  - destruct (workers g !! tid) as [w |]; [| injection Hstep as <-; exact Hj].
    destruct (capture_loop_turn s w g) as [[w' g1] |] eqn:Hturn;
      [| discriminate Hstep].
    cbn in Hstep. injection Hstep as <-. cbn.
    destruct (capture_loop_turn_globals s w w' g g1 Hturn) as (-> & _). exact Hj.
Qed.

Lemma run_leaves_handle_detached (evs : list event) : forall g g',
  joinable (g_capture_thread g) = false ->
  run g evs = Some g' ->
  joinable (g_capture_thread g') = false.
Proof.
  induction evs as [| ev evs IH]; intros g g' Hj Hrun; cbn [run] in Hrun.
  - injection Hrun as <-. exact Hj.
  - destruct (step g ev) as [g1 |] eqn:Hstep; [| discriminate Hrun].
    cbn in Hrun. apply (IH g1 g'); [| exact Hrun].
    apply (step_leaves_handle_detached g g1 ev Hj Hstep).
Qed.

(** So the guard of [start_capture_engine] never fires: in no reachable
    state does the function return 1. *)
Lemma start_never_reports_running (evs : list event) (g : Engine)
    (launch_ok : bool) (name : string) (buffer : option (list C_PacketData)) :
  run init_engine evs = Some g ->
  fst (start_capture_engine launch_ok name buffer g)
  = if launch_ok then 0 else 2.
Proof.
  intros Hrun.
  pose proof (run_leaves_handle_detached evs init_engine g eq_refl Hrun) as Hj.
  unfold start_capture_engine. rewrite Hj. destruct launch_ok; reflexivity.
Qed.

(** C6, evaluated on the code: a first [start_capture_engine] on the
    initial engine returns 0 and leaves the producer running; a second
    call, made while that capture loop is still running, does not return 1
    but 0 again, clears the stop flag, and launches a second capture loop:
    two loops are live afterwards. *)
Theorem second_start_is_not_refused (buffer : option (list C_PacketData)) :
  let first := start_capture_engine true "eth0" buffer init_engine in
  let second := start_capture_engine true "eth0" buffer (snd first) in
  fst first = 0
  /\ running (snd first) = true
  /\ live_loops (snd first) = 1%nat
  /\ fst second = 0
  /\ live_loops (snd second) = 2%nat
  /\ snd second <> snd first.
Proof.
  cbn zeta. repeat split; try reflexivity.
  cbn. intros H. discriminate H.
Qed.

(** ** The null destination *)

Lemma step_null_sink (g : Engine) (ev : event) :
  g_shared_buffer g = None ->
  keeps_null_sink ev ->
  exists g',
    step g ev = Some g'
    /\ g_shared_buffer g' = None
    /\ g_write_index g' = g_write_index g.
Proof.
  intros Hnull Hev. destruct ev as [launch_ok name [mem |] | | tid s];
    cbn [step keeps_null_sink] in *.
  - contradiction.
  - eexists. split; [reflexivity |]. unfold start_capture_engine.
    destruct (joinable (g_capture_thread g)); [split; [exact Hnull | reflexivity] |].
    destruct launch_ok; cbn; split; reflexivity.
  - eexists. split; [reflexivity |]. cbn. split; [exact Hnull | reflexivity].
  - destruct (workers g !! tid) as [w |];
      [| exists g; repeat split; [exact Hnull]].
    unfold capture_loop_turn, capture_loop_body. rewrite Hnull.
    destruct (finished w); [| destruct (g_stop_capture g)];
      cbn; eexists; (split; [reflexivity |]); cbn;
      (split; [exact Hnull | reflexivity]).
Qed.

Lemma run_null_sink (evs : list event) : forall g,
  g_shared_buffer g = None ->
  Forall keeps_null_sink evs ->
  exists g',
    run g evs = Some g'
    /\ g_shared_buffer g' = None
    /\ g_write_index g' = g_write_index g.
Proof.
  induction evs as [| ev evs IH]; intros g Hnull Hevs.
  - exists g. repeat split; [exact Hnull].
  - inversion Hevs as [| ? ? Hev Hrest]; subst.
    destruct (step_null_sink g ev Hnull Hev) as (g1 & Hstep & Hnull1 & Hidx1).
    destruct (IH g1 Hnull1 Hrest) as (g' & Hrun & Hnull' & Hidx').
    exists g'. cbn [run]. rewrite Hstep. cbn.
    split; [exact Hrun |]. split; [exact Hnull' | congruence].
Qed.

(** A turn of a live capture loop on a null destination: with the stop
    flag clear the whole engine state, the loop's own variables included,
    is left as it was; with the flag set the loop returns and nothing else
    changes. *)
Lemma turn_null_sink (g : Engine) (tid : nat) (w : Worker) (s : Sample) :
  g_shared_buffer g = None ->
  workers g !! tid = Some w ->
  finished w = false ->
  step g (Turn tid s)
  = Some {| g_stop_capture := g_stop_capture g;
            g_write_index := g_write_index g;
            g_shared_buffer := None;
            g_capture_thread := g_capture_thread g;
            workers :=
              <[tid := {| interface_name := interface_name w;
                          local_write_index := local_write_index w;
                          flow_counter := flow_counter w;
                          finished := g_stop_capture g |}]> (workers g) |}.
Proof.
  intros Hnull Hw Hlive. cbn [step]. rewrite Hw.
  unfold capture_loop_turn, capture_loop_body. rewrite Hlive, Hnull.
  destruct (g_stop_capture g) eqn:Hstop; cbn; rewrite ?Hnull, ?Hstop.
  - reflexivity.
  - destruct w as [nm lw fc fin]. cbn in *. subst fin. reflexivity.
Qed.

(** C7: while the destination pointer is null (from a state where it is
    null, through any calls and loop turns that do not set it), the engine
    never makes an invalid access, the pointer stays null and the
    published index is not written.  In the state reached, a turn of any
    live capture loop keeps every global and the loop's own index and
    counter; the loop stays in its [while] when the stop flag is clear and
    returns when it is set. *)
Theorem null_sink_loop_idles (g : Engine) (evs : list event) :
  g_shared_buffer g = None ->
  Forall keeps_null_sink evs ->
  exists g',
    run g evs = Some g'
    /\ g_shared_buffer g' = None
    /\ get_write_index g' = get_write_index g
    /\ forall (tid : nat) (w : Worker) (s : Sample),
         workers g' !! tid = Some w ->
         finished w = false ->
         exists g'',
           step g' (Turn tid s) = Some g''
           /\ g_shared_buffer g'' = None
           /\ get_write_index g'' = get_write_index g'
           /\ g_stop_capture g'' = g_stop_capture g'
           /\ (g_stop_capture g' = false -> g'' = g')
           /\ (g_stop_capture g' = true ->
               exists w', workers g'' !! tid = Some w'
                          /\ finished w' = true
                          /\ local_write_index w' = local_write_index w
                          /\ flow_counter w' = flow_counter w).
Proof.
  intros Hnull Hevs.
  destruct (run_null_sink evs g Hnull Hevs) as (g' & Hrun & Hnull' & Hidx).
  exists g'. split; [exact Hrun |]. split; [exact Hnull' |].
  split; [exact Hidx |].
  intros tid w s Hw Hlive.
  eexists. split; [apply (turn_null_sink g' tid w s Hnull' Hw Hlive) |].
  cbn [g_shared_buffer get_write_index g_write_index g_stop_capture workers].
  repeat split.
  - intros Hclear. destruct g' as [st wi sb th ws]. cbn in *. subst.
    f_equal. apply list_insert_id.
    destruct w as [nm lw fc fin]. cbn in *. subst fin. exact Hw.
  - intros Hset. eexists. split.
    + apply list_lookup_insert_eq. apply (lookup_lt_Some _ _ _ Hw).
    + cbn. repeat split. exact Hset.
Qed.

Lemma null_sink_loop_idles_witness :
  exists g',
    run init_engine
        [Start true "eth0" None; Turn 0 (mkSample 5 100); Stop]
    = Some g'
    /\ g_shared_buffer g' = None
    /\ get_write_index g' = 0.
Proof.
  destruct (null_sink_loop_idles init_engine
              [Start true "eth0" None; Turn 0 (mkSample 5 100); Stop])
    as (g' & Hrun & Hnull & Hidx & _).
  - reflexivity.
  - repeat constructor.
  - exists g'. split; [exact Hrun |]. split; [exact Hnull | exact Hidx].
Defined.

(** ** The published index *)

(** The next index computed by the loop body from an index in range. *)
Lemma next_index_in_range (i : Z) :
  0 <= i < MAX_BUFFER_SLOTS ->
  Z.rem (wrap_int (i + 1)) MAX_BUFFER_SLOTS = (i + 1) mod MAX_BUFFER_SLOTS
  /\ 0 <= (i + 1) mod MAX_BUFFER_SLOTS < MAX_BUFFER_SLOTS.
Proof.
  unfold MAX_BUFFER_SLOTS, wrap_int, to_int32. intros Hi.
  rewrite (Z.mod_small (i + 1)) by lia.
  destruct (Z.ltb_spec (i + 1) (2 ^ 31)) as [_ | ?]; [| lia].
  split; [apply Z.rem_mod_nonneg; lia | apply Z.mod_pos_bound; lia].
Qed.

Lemma index_inv_init : index_inv init_engine.
Proof.
  unfold index_inv, MAX_BUFFER_SLOTS. cbn.
  split; [lia |]. split; [constructor | reflexivity].
Qed.

Lemma index_inv_start (launch_ok : bool) (name : string)
    (buffer : option (list C_PacketData)) (g : Engine) :
  index_inv g ->
  index_inv (snd (start_capture_engine launch_ok name buffer g)).
Proof.
  intros Hinv. pose proof Hinv as (Hidx & Hall & Hone).
  unfold start_capture_engine.
  destruct (joinable (g_capture_thread g)); [exact Hinv |].
  destruct launch_ok; [| exact Hinv].
  unfold index_inv. cbn.
  split; [exact Hidx |]. split.
  - apply Forall_app. split; [exact Hall |].
    constructor; [| constructor]. unfold MAX_BUFFER_SLOTS. cbn. lia.
  - destruct (workers g) as [| w [| w2 ws]]; cbn; [| exact I ..].
    symmetry. exact Hone.
Qed.

(** A turn of a loop: what it does to the indices. *)
Lemma capture_loop_turn_index (s : Sample) (w w' : Worker) (g g' : Engine) :
  0 <= local_write_index w < MAX_BUFFER_SLOTS ->
  capture_loop_turn s w g = Some (w', g') ->
  workers g' = workers g
  /\ ((local_write_index w' = local_write_index w
       /\ g_write_index g' = g_write_index g)
      \/ (finished w = false /\ g_stop_capture g = false
          /\ is_Some (g_shared_buffer g)
          /\ local_write_index w' = (local_write_index w + 1) mod MAX_BUFFER_SLOTS
          /\ g_write_index g' = (local_write_index w + 1) mod MAX_BUFFER_SLOTS)).
Proof.
  intros Hw Hturn. destruct (next_index_in_range _ Hw) as (Hnext & _).
  unfold capture_loop_turn in Hturn.
  destruct (finished w) eqn:Hfin.
  { simplify_eq. split; [reflexivity |]. left. split; reflexivity. }
  destruct (g_stop_capture g) eqn:Hstop.
  { simplify_eq. split; [reflexivity |]. left. split; reflexivity. }
  unfold capture_loop_body in Hturn.
  destruct (g_shared_buffer g) as [mem |] eqn:Hbuf.
  - destruct (0 <=? local_write_index w); [| discriminate Hturn].
    destruct (mem !! Z.to_nat (local_write_index w)); [| discriminate Hturn].
    simplify_eq. cbn. split; [reflexivity |]. right.
    repeat split; try exact Hnext. eexists. reflexivity.
  - simplify_eq. split; [reflexivity |]. left. split; reflexivity.
Qed.

Lemma index_inv_step (g g' : Engine) (ev : event) :
  index_inv g -> step g ev = Some g' -> index_inv g'.
Proof.
  intros Hinv Hstep. destruct ev as [launch_ok name buffer | | tid s];
    cbn [step] in Hstep.
  - injection Hstep as <-. apply index_inv_start. exact Hinv.
  - injection Hstep as <-. exact Hinv.
  - destruct (workers g !! tid) as [w |] eqn:Hw;
      [| injection Hstep as <-; exact Hinv].
    destruct (capture_loop_turn s w g) as [[w' g1] |] eqn:Hturn;
      [| discriminate Hstep].
    cbn in Hstep. injection Hstep as <-.
    destruct Hinv as (Hidx & Hall & Hone).
    assert (Hwr : 0 <= local_write_index w < MAX_BUFFER_SLOTS).
    { rewrite Forall_lookup in Hall. apply (Hall tid w Hw). }
    destruct (capture_loop_turn_index s w w' g g1 Hwr Hturn) as (Hws & Hcase).
    assert (Hwr' : 0 <= local_write_index w' < MAX_BUFFER_SLOTS
                   /\ 0 <= g_write_index g1 < MAX_BUFFER_SLOTS).
    { destruct Hcase as [(-> & ->) | (_ & _ & _ & -> & ->)].
      - split; assumption.
      - split; apply Z.mod_pos_bound; unfold MAX_BUFFER_SLOTS; lia. }
    unfold index_inv. cbn [g_write_index workers]. rewrite Hws.
    split; [apply Hwr' |]. split.
    + apply Forall_insert; [exact Hall | apply Hwr'].
    + destruct (workers g) as [| w0 [| w1 ws]] eqn:Hwsg.
      * rewrite lookup_nil in Hw. discriminate Hw.
      * destruct tid as [| tid]; [| rewrite lookup_cons_ne_0 in Hw by lia;
            rewrite lookup_nil in Hw; discriminate Hw].
        cbn in Hw. injection Hw as ->. cbn.
        destruct Hcase as [(-> & ->) | (_ & _ & _ & -> & ->)];
          [exact Hone | reflexivity].
      * destruct tid as [| [| tid]]; cbn; exact I.
Qed.

Lemma index_inv_run (evs : list event) : forall g g',
  index_inv g -> run g evs = Some g' -> index_inv g'.
Proof.
  induction evs as [| ev evs IH]; intros g g' Hinv Hrun; cbn [run] in Hrun.
  - injection Hrun as <-. exact Hinv.
  - destruct (step g ev) as [g1 |] eqn:Hstep; [| discriminate Hrun].
    cbn in Hrun. apply (IH g1 g'); [| exact Hrun].
    apply (index_inv_step g g1 ev Hinv Hstep).
Qed.

(** C9 as stated fails after a restart: start, two publications (the
    index is 2), stop, the loop returns, start again.  The new loop begins
    at its own index 0, so its first publication stores 1, which is not
    2 + 1. *)
Lemma publication_after_restart :
  let s := {| now_us := 1700000000000000; drawn_length := 100 |} in
  exists g g',
    run init_engine
        [Start true "eth0" (Some zero_buffer); Turn 0 s; Turn 0 s;
         Stop; Turn 0 s; Start true "eth0" (Some zero_buffer)]
    = Some g
    /\ publishes g 1
    /\ step g (Turn 1 s) = Some g'
    /\ get_write_index g = 2
    /\ get_write_index g' = 1
    /\ get_write_index g' <> (get_write_index g + 1) mod MAX_BUFFER_SLOTS.
Proof.
  intros s.
  set (trace := [Start true "eth0" (Some zero_buffer); Turn 0 s; Turn 0 s;
                 Stop; Turn 0 s; Start true "eth0" (Some zero_buffer)]).
  assert (Hidx : g_write_index <$> run init_engine trace = Some 2)
    by (vm_compute; reflexivity).
  assert (Hlive : (fun g => finished <$> workers g !! 1%nat)
                    <$> run init_engine trace = Some (Some false))
    by (vm_compute; reflexivity).
  assert (Hclear : g_stop_capture <$> run init_engine trace = Some false)
    by (vm_compute; reflexivity).
  assert (Hbuf : (fun g => from_option (fun _ => true) false (g_shared_buffer g))
                   <$> run init_engine trace = Some true)
    by (vm_compute; reflexivity).
  assert (Hnext : g_write_index
                    <$> (run init_engine trace ≫= fun g => step g (Turn 1 s))
                  = Some 1)
    by (vm_compute; reflexivity).
  destruct (run init_engine trace) as [g |] eqn:Hrun; [| discriminate Hidx].
  cbn in Hidx, Hlive, Hclear, Hbuf.
  change (g_write_index <$> step g (Turn 1 s) = Some 1) in Hnext.
  destruct (step g (Turn 1 s)) as [g' |] eqn:Hstep; [| discriminate Hnext].
  cbn in Hnext.
  injection Hidx as Hidx. injection Hlive as Hlive.
  injection Hclear as Hclear. injection Hbuf as Hbuf.
  injection Hnext as Hnext.
  exists g, g'. split; [reflexivity |]. split.
  { destruct (workers g !! 1%nat) as [w |] eqn:Hw; [| discriminate Hlive].
    exists w. cbn in Hlive. injection Hlive as Hlive.
    repeat split; try assumption.
    destruct (g_shared_buffer g) as [mem |];
      [exists mem; reflexivity | discriminate Hbuf]. }
  split; [exact Hstep |]. unfold get_write_index.
  split; [exact Hidx |]. split; [exact Hnext |].
  rewrite Hidx, Hnext. vm_compute. intros H. discriminate H.
Qed.

(** C9, amended: the published index is 0 initially and is a slot number
    (0 to [MAX_BUFFER_SLOTS - 1]) in every reachable state, so
    [get_write_index] never returns anything else; as long as at most one
    capture loop was ever launched, every publication advances it by
    exactly 1 modulo [MAX_BUFFER_SLOTS]. *)
Theorem write_index_in_range (evs : list event) (g : Engine) :
  run init_engine evs = Some g ->
  get_write_index init_engine = 0
  /\ 0 <= get_write_index g <= MAX_BUFFER_SLOTS - 1
  /\ forall (tid : nat) (s : Sample) (g' : Engine),
       publishes g tid ->
       step g (Turn tid s) = Some g' ->
       (List.length (workers g) <= 1)%nat ->
       get_write_index g' = (get_write_index g + 1) mod MAX_BUFFER_SLOTS.
Proof.
  intros Hrun.
  pose proof (index_inv_run evs init_engine g index_inv_init Hrun)
    as (Hidx & Hall & Hone).
  split; [reflexivity |]. unfold get_write_index. split; [lia |].
  intros tid s g' (w & Hw & Hlive & Hclear & Hbuf) Hstep.
  assert (Hwr : 0 <= local_write_index w < MAX_BUFFER_SLOTS).
  { rewrite Forall_lookup in Hall. apply (Hall tid w Hw). }
  cbn [step] in Hstep. rewrite Hw in Hstep.
  destruct (capture_loop_turn s w g) as [[w' g1] |] eqn:Hturn;
    [| discriminate Hstep].
  cbn in Hstep. injection Hstep as <-. cbn [g_write_index].
  assert (Hpub : g_write_index g1
                 = (local_write_index w + 1) mod MAX_BUFFER_SLOTS).
  { unfold capture_loop_turn, capture_loop_body in Hturn.
    rewrite Hlive, Hclear in Hturn. destruct Hbuf as [mem Hmem].
    rewrite Hmem in Hturn.
    destruct (0 <=? local_write_index w); [| discriminate Hturn].
    destruct (mem !! Z.to_nat (local_write_index w)); [| discriminate Hturn].
    injection Hturn as <- <-. cbn [g_write_index].
    apply (next_index_in_range _ Hwr). }
  intros Hfew. rewrite Hpub.
  destruct (workers g) as [| w0 [| w1 ws]] eqn:Hws.
  - rewrite lookup_nil in Hw. discriminate Hw.
  - destruct tid as [| tid]; [| rewrite lookup_cons_ne_0 in Hw by lia;
        rewrite lookup_nil in Hw; discriminate Hw].
    cbn in Hw. injection Hw as ->. rewrite Hone. reflexivity.
  - cbn in Hfew. lia.
Qed.

Lemma write_index_in_range_witness :
  let s := {| now_us := 1700000000000000; drawn_length := 100 |} in
  let slot := {| data := []; length := 0; timestamp := 0; flow_hash := 0;
                 is_alert := false |} in
  exists g,
    run init_engine
        [Start true "eth0" (Some [slot; slot; slot]); Turn 0 s; Turn 0 s]
    = Some g
    /\ get_write_index g = 2
    /\ 0 <= get_write_index g <= MAX_BUFFER_SLOTS - 1.
Proof.
  intros s slot. eexists.
  split; [vm_compute; reflexivity |]. split; [reflexivity |].
  apply (write_index_in_range
           [Start true "eth0" (Some [slot; slot; slot]); Turn 0 s; Turn 0 s]).
  vm_compute. reflexivity.
Defined.

End SnifferSpec.

(** * Further properties of the enforcement engine *)

Module FirewallHistory.

Import Firewall.

Lemma lookup_after_control_calls (ops : list control_op) :
  forall (e : SimpleFlowEnforcer) (f : FlowKey),
    enforced_flows_ (control_calls e ops) !! f
    = match last_enforced f ops with
      | Some a => Some a
      | None => enforced_flows_ e !! f
      end.
Proof.
  induction ops as [| op ops IH]; intros e f; cbn [control_calls last_enforced].
  - reflexivity.
  - rewrite IH. destruct (last_enforced f ops) as [a |]; [reflexivity |].
    destruct op as [g a | a]; cbn.
    + destruct (decide (g = f)) as [-> | Hne].
      * apply lookup_insert_eq.
      * apply lookup_insert_ne. exact Hne.
    + reflexivity.
Qed.

(** After any history of control-plane calls, the table entry of a flow is
    the action of the latest [enforce_flow_policy] call for that flow, and
    the entry the table had before when the history has no such call. *)
Theorem table_holds_latest_policy (e : SimpleFlowEnforcer)
    (ops : list control_op) (f : FlowKey) :
  enforced_flows_ (control_calls e ops) !! f
  = match last_enforced f ops with
    | Some a => Some a
    | None => enforced_flows_ e !! f
    end.
Proof.
  revert e. induction ops as [| op ops IH]; intros e;
    cbn [control_calls last_enforced]; [reflexivity |].
  rewrite IH. destruct (last_enforced f ops) as [a |]; [reflexivity |].
  destruct op as [g a | a]; cbn; [| reflexivity].
  destruct (decide (g = f)) as [-> | Hne].
  - apply lookup_insert_eq.
  - apply lookup_insert_ne. exact Hne.
Qed.

(** No control-plane call removes a table entry: a flow that has a policy
    keeps having one, whatever calls follow. *)
Theorem table_entries_persist (e : SimpleFlowEnforcer)
    (ops : list control_op) (f : FlowKey) :
  is_Some (enforced_flows_ e !! f) ->
  is_Some (enforced_flows_ (control_calls e ops) !! f).
Proof.
  intros Hsome. rewrite lookup_after_control_calls.
  destruct (last_enforced f ops) as [a |]; [eexists; reflexivity | exact Hsome].
Qed.

Lemma table_entries_persist_witness :
  is_Some (enforced_flows_
             (control_calls (enforce_flow_policy new_enforcer 42 DROP)
                [SetDefault REJECT; Enforce 7 PASS; Enforce 42 RATE_LIMIT])
           !! 42).
Proof.
  apply (table_entries_persist (enforce_flow_policy new_enforcer 42 DROP)
           [SetDefault REJECT; Enforce 7 PASS; Enforce 42 RATE_LIMIT] 42).
  vm_compute. eexists. reflexivity.
Defined.

Lemma default_from_defaults_only (ops : list control_op) :
  forall e e' : SimpleFlowEnforcer,
    default_action_ e = default_action_ e' ->
    default_action_ (control_calls e ops)
    = default_action_ (control_calls e' (without_enforce ops)).
Proof.
  induction ops as [| [g a | a] ops IH]; intros e e' Hsame; cbn.
  - exact Hsame.
  - apply IH. exact Hsame.
  - apply IH. reflexivity.
Qed.

Lemma default_after_control_calls (ops : list control_op)
    (e : SimpleFlowEnforcer) :
  default_action_ (control_calls e ops)
  = default_action_ (control_calls e (without_enforce ops)).
Proof. apply default_from_defaults_only. reflexivity. Qed.

(** The decision path sees nothing of the flow table or of the packet
    bytes: after any history of control-plane calls, the decision for a
    length is the one the engine would give had every
    [enforce_flow_policy] call of the history never been made, for any two
    packet buffers. *)
Theorem decisions_ignore_flow_policies (e : SimpleFlowEnforcer)
    (ops : list control_op) (packet_data packet_data' : list Byte.byte)
    (len : Z) :
  get_decision (control_calls e ops) packet_data len
  = get_decision (control_calls e (without_enforce ops)) packet_data' len.
Proof.
  unfold get_decision. rewrite default_after_control_calls. reflexivity.
Qed.

(** Two calls for the same flow leave what the later one alone leaves; two
    calls for different flows can be made in either order. *)
Theorem enforce_flow_policy_compose (e : SimpleFlowEnforcer)
    (f g : FlowKey) (a b : FirewallAction) :
  enforce_flow_policy (enforce_flow_policy e f a) f b
  = enforce_flow_policy e f b
  /\ (f <> g ->
      enforce_flow_policy (enforce_flow_policy e f a) g b
      = enforce_flow_policy (enforce_flow_policy e g b) f a).
Proof.
  unfold enforce_flow_policy. cbn [default_action_ enforced_flows_]. split.
  - f_equal. apply insert_insert_eq.
  - intros Hne. f_equal. apply insert_insert_ne. congruence.
Qed.

Lemma enforce_flow_policy_compose_witness :
  enforce_flow_policy (enforce_flow_policy new_enforcer 42 DROP) 7 REJECT
  = enforce_flow_policy (enforce_flow_policy new_enforcer 7 REJECT) 42 DROP.
Proof.
  apply (enforce_flow_policy_compose new_enforcer 42 7 DROP REJECT). lia.
Defined.

End FirewallHistory.

(** * Further properties of the ring buffer *)

Module RingModel.

Import Ring RingSpec.

Section Model.

Context {T : Type}.
Implicit Types (rb : ConcurrentRingBuffer T) (q : list T) (x item : T).

(** ** What each call may touch *)

Lemma push_frame rb x ok rb' :
  push rb x = Some (ok, rb') ->
  capacity_ rb' = capacity_ rb
  /\ head_ rb' = head_ rb
  /\ (ok = false -> rb' = rb)
  /\ forall i : nat,
       i <> Z.to_nat (tail_ rb) -> buffer_ rb' !! i = buffer_ rb !! i.
Proof.
  unfold push. intros H.
  destruct (capacity_ rb =? 0); [discriminate H |]. cbn zeta in H.
  destruct (_ =? head_ rb).
  { injection H as <- <-. split; [| split; [| split]]; intros; reflexivity. }
  destruct (_ <? _)%nat; [| discriminate H].
  injection H as <- <-. cbn.
  split; [reflexivity |]. split; [reflexivity |]. split.
  - intros Hno. discriminate Hno.
  - intros i Hi. apply list_lookup_insert_ne. congruence.
Qed.

Lemma pop_frame rb item ok item' rb' :
  pop rb item = Some (ok, item', rb') ->
  capacity_ rb' = capacity_ rb
  /\ tail_ rb' = tail_ rb
  /\ buffer_ rb' = buffer_ rb
  /\ (ok = false -> rb' = rb /\ item' = item).
Proof.
  unfold pop. cbn zeta. intros H.
  destruct (head_ rb =? tail_ rb).
  { injection H as <- <- <-. split; [| split; [| split]]; try reflexivity.
    intros _. split; reflexivity. }
  destruct (buffer_ rb !! _) as [y |]; [| discriminate H].
  destruct (capacity_ rb =? 0); [discriminate H |].
  injection H as <- <- <-. cbn.
  split; [reflexivity |]. split; [reflexivity |]. split; [reflexivity |].
  intros Hno. discriminate Hno.
Qed.

(** The producer side and the consumer side write disjoint parts of the
    buffer.  A [push] never changes [head_] or the capacity and changes no
    slot but the one at the old [tail_]; a failed [push] changes nothing.
    A [pop] never changes [tail_], the capacity or any slot; a failed [pop]
    changes neither the buffer nor the caller's variable. *)
Theorem push_and_pop_write_disjoint_parts rb x item :
  (forall ok rb',
     push rb x = Some (ok, rb') ->
     capacity_ rb' = capacity_ rb
     /\ head_ rb' = head_ rb
     /\ (ok = false -> rb' = rb)
     /\ forall i : nat,
          i <> Z.to_nat (tail_ rb) -> buffer_ rb' !! i = buffer_ rb !! i)
  /\ (forall ok item' rb',
        pop rb item = Some (ok, item', rb') ->
        capacity_ rb' = capacity_ rb
        /\ tail_ rb' = tail_ rb
        /\ buffer_ rb' = buffer_ rb
        /\ (ok = false -> rb' = rb /\ item' = item)).
Proof.
  split.
  - intros ok rb'. apply push_frame.
  - intros ok item' rb'. apply pop_frame.
Qed.

(** ** The queue a buffer holds *)



(** The slots from [head_] on, as many as asked for. *)
Lemma slots_from_head rb (k : nat) :
  ring_wf rb ->
  exists q,
    List.length q = k
    /\ forall (j : nat) x,
         q !! j = Some x ->
         buffer_ rb !! Z.to_nat ((head_ rb + Z.of_nat j) mod capacity_ rb)
         = Some x.
Proof.
  intros (HC & Hlen & Hh & Ht). induction k as [| k (q & Hq & Hslots)].
  - exists []. split; [reflexivity |]. intros j x Hj.
    rewrite lookup_nil in Hj. discriminate Hj.
  - destruct (lookup_lt_is_Some_2 (buffer_ rb)
                (Z.to_nat ((head_ rb + Z.of_nat k) mod capacity_ rb)))
      as [y Hy].
    { pose proof (Z.mod_pos_bound (head_ rb + Z.of_nat k) (capacity_ rb)).
      lia. }
    exists (q ++ [y]). split.
    { rewrite length_app. cbn. lia. }
    intros j x Hj.
    destruct (Nat.lt_ge_cases j (List.length q)) as [Hin | Hout].
    + rewrite lookup_app_l in Hj by exact Hin. apply Hslots. exact Hj.
    + rewrite lookup_app_r in Hj by exact Hout.
      pose proof (lookup_lt_Some _ _ _ Hj) as Hone. cbn [List.length] in Hone.
      assert (j = k) as -> by lia.
      replace (k - List.length q)%nat with 0%nat in Hj by lia.
      cbn in Hj. injection Hj as <-. exact Hy.
Qed.

Lemma queue_of_exists rb : ring_wf rb -> exists q, queue_of rb q.
Proof.
  intros Hwf. pose proof Hwf as (HC & Hlen & Hh & Ht).
  pose proof (Z.mod_pos_bound (tail_ rb - head_ rb) (capacity_ rb)) as Hn.
  destruct (slots_from_head rb
              (Z.to_nat ((tail_ rb - head_ rb) mod capacity_ rb)) Hwf)
    as (q & Hq & Hslots).
  exists q. unfold queue_of. rewrite Hq, Z2Nat.id by lia.
  split; [exact Hwf |]. split; [lia |]. split; [| exact Hslots].
  rewrite Zplus_mod_idemp_r.
  replace (head_ rb + (tail_ rb - head_ rb)) with (tail_ rb) by ring.
  symmetry. apply Z.mod_small. lia.
Qed.


(** ** Undefined behaviour is out of reach *)

Lemma push_defined rb q x :
  queue_of rb q ->
  exists ok rb' q',
    push rb x = Some (ok, rb') /\ queue_of rb' q'
    /\ (ok = true <-> Z.of_nat (List.length q) < capacity_ rb - 1).
Proof.
  intros Hq. pose proof Hq as (_ & Hlt & _).
  destruct (Z_lt_le_dec (Z.of_nat (List.length q)) (capacity_ rb - 1))
    as [Hroom | Hfull].
  - destruct (push_queue_of rb q x Hq Hroom) as (rb' & Hpush & _ & Hq').
    exists true, rb', (q ++ [x]). split; [exact Hpush |].
    split; [exact Hq' |]. split; intros _; [exact Hroom | reflexivity].
  - exists false, rb, q. split; [apply (push_full rb q x Hq); lia |].
    split; [exact Hq |]. split; [intros Hno; discriminate Hno | lia].
Qed.

Lemma pop_defined rb q item :
  queue_of rb q ->
  exists ok item' rb' q',
    pop rb item = Some (ok, item', rb') /\ queue_of rb' q'
    /\ (ok = true <-> q <> []).
Proof.
  intros Hq. destruct q as [| y q].
  - exists false, item, rb, []. split; [apply pop_empty; exact Hq |].
    split; [exact Hq |]. split; [intros Hno; discriminate Hno | congruence].
  - destruct (pop_queue_of rb q y item Hq) as (rb' & Hpop & Hq').
    exists true, y, rb', q. split; [exact Hpop |]. split; [exact Hq' |].
    split; [intros _; discriminate | reflexivity].
Qed.

(** On a buffer that satisfies the class invariant, [push] and [pop] are
    defined (no remainder by zero, no access outside [buffer_]) and leave a
    buffer that satisfies it again.  [push] fails exactly when [tail_] is
    one slot behind [head_], [pop] exactly when the two are equal. *)
Theorem push_and_pop_keep_invariant rb x item :
  ring_wf rb ->
  (exists ok rb',
     push rb x = Some (ok, rb') /\ ring_wf rb'
     /\ (ok = false <-> (tail_ rb + 1) mod capacity_ rb = head_ rb))
  /\ (exists ok item' rb',
        pop rb item = Some (ok, item', rb') /\ ring_wf rb'
        /\ (ok = false <-> head_ rb = tail_ rb)).
Proof.
  intros Hwf. pose proof Hwf as (HC & Hlen & Hh & Ht). split.
  - destruct (queue_of_exists rb Hwf) as (q & Hq).
    destruct (push_defined rb q x Hq) as (ok & rb' & q' & Hpush & Hq' & _).
    exists ok, rb'. split; [exact Hpush |]. split; [apply Hq' |].
    unfold push in Hpush.
    destruct (Z.eqb_spec (capacity_ rb) 0) as [? | _]; [lia |].
    cbn zeta in Hpush.
    rewrite next_index_no_wrap in Hpush by (exact Hwf || exact Ht).
    destruct (Z.eqb_spec ((tail_ rb + 1) mod capacity_ rb) (head_ rb))
      as [Heq | Hne].
    + injection Hpush as <- <-. split; intros _; [exact Heq | reflexivity].
    + destruct (_ <? _)%nat; [| discriminate Hpush].
      injection Hpush as <- <-. split; [intros Hno; discriminate Hno |].
      intros Heq. contradiction.
  - destruct (queue_of_exists rb Hwf) as (q & Hq).
    destruct (pop_defined rb q item Hq)
      as (ok & item' & rb' & q' & Hpop & Hq' & _).
    exists ok, item', rb'. split; [exact Hpop |]. split; [apply Hq' |].
    unfold pop in Hpop. cbn zeta in Hpop.
    destruct (Z.eqb_spec (head_ rb) (tail_ rb)) as [Heq | Hne].
    + injection Hpop as <- <- <-. split; intros _; [exact Heq | reflexivity].
    + destruct (buffer_ rb !! _); [| discriminate Hpop].
      destruct (capacity_ rb =? 0); [discriminate Hpop |].
      injection Hpop as <- <- <-. split; [intros Hno; discriminate Hno |].
      intros Heq. contradiction.
Qed.

(** A buffer constructed with capacity 1 never accepts a record: every
    [push] returns false and leaves the buffer as it was. *)
Theorem capacity_one_holds_nothing rb x :
  ring_wf rb -> capacity_ rb = 1 -> push rb x = Some (false, rb).
Proof.
  intros Hwf Hone. destruct (queue_of_exists rb Hwf) as (q & Hq).
  apply (push_full rb q x Hq). destruct Hq as (_ & Hlt & _). lia.
Qed.

(** ** The buffer against a first-in first-out list *)

Lemma fifo_call_push_room (cap : Z) q item x :
  Z.of_nat (List.length q) < cap - 1 ->
  fifo_call cap q item (CallPush x) = (RetPush true, item, q ++ [x]).
Proof.
  intros Hroom. unfold fifo_call.
  destruct (Z.ltb_spec (Z.of_nat (List.length q)) (cap - 1)); [reflexivity | lia].
Qed.

Lemma fifo_call_push_full (cap : Z) q item x :
  cap - 1 <= Z.of_nat (List.length q) ->
  fifo_call cap q item (CallPush x) = (RetPush false, item, q).
Proof.
  intros Hfull. unfold fifo_call.
  destruct (Z.ltb_spec (Z.of_nat (List.length q)) (cap - 1)); [lia | reflexivity].
Qed.

Lemma ring_calls_follow_fifo (calls : list (ring_call T)) :
  forall rb q item,
    queue_of rb q ->
    exists rb',
      ring_calls rb item calls
      = Some ((fifo_calls (capacity_ rb) q item calls).1.1,
              (fifo_calls (capacity_ rb) q item calls).1.2, rb')
      /\ capacity_ rb' = capacity_ rb
      /\ queue_of rb' (fifo_calls (capacity_ rb) q item calls).2.
Proof.
  induction calls as [| [x |] calls IH]; intros rb q item Hq.
  - exists rb. split; [reflexivity | split; [reflexivity | exact Hq]].
  - pose proof Hq as (_ & Hlt & _).
    destruct (Z_lt_le_dec (Z.of_nat (List.length q)) (capacity_ rb - 1))
      as [Hroom | Hfull].
    + destruct (push_queue_of rb q x Hq Hroom) as (rb1 & Hpush & Hcap & Hq1).
      destruct (IH rb1 (q ++ [x]) item Hq1) as (rb' & Hrest & Hcap' & Hq').
      rewrite Hcap in Hrest, Hcap', Hq'.
      exists rb'. cbn [ring_calls fifo_calls].
      rewrite fifo_call_push_room by exact Hroom.
      rewrite Hpush. cbn. rewrite Hrest. cbn.
      destruct (fifo_calls (capacity_ rb) (q ++ [x]) item calls) as [[? ?] ?].
      cbn in *. split; [reflexivity | split; assumption].
    + destruct (IH rb q item Hq) as (rb' & Hrest & Hcap' & Hq').
      exists rb'. cbn [ring_calls fifo_calls].
      rewrite fifo_call_push_full by exact Hfull.
      rewrite (push_full rb q x Hq) by lia. cbn. rewrite Hrest. cbn.
      destruct (fifo_calls (capacity_ rb) q item calls) as [[? ?] ?].
      cbn in *. split; [reflexivity | split; assumption].
  - destruct q as [| y q].
    + destruct (IH rb [] item Hq) as (rb' & Hrest & Hcap' & Hq').
      exists rb'. cbn [ring_calls fifo_calls fifo_call].
      rewrite (pop_empty rb item Hq). cbn. rewrite Hrest. cbn.
      destruct (fifo_calls (capacity_ rb) [] item calls) as [[? ?] ?].
      cbn in *. split; [reflexivity | split; assumption].
    + destruct (pop_queue_of rb q y item Hq) as (rb1 & Hpop & Hq1).
      destruct (pop_frame rb item true y rb1 Hpop) as (Hcap & _).
      destruct (IH rb1 q y Hq1) as (rb' & Hrest & Hcap' & Hq').
      rewrite Hcap in Hrest, Hcap', Hq'.
      exists rb'. cbn [ring_calls fifo_calls fifo_call].
      rewrite Hpop. cbn. rewrite Hrest. cbn.
      destruct (fifo_calls (capacity_ rb) q y calls) as [[? ?] ?].
      cbn in *. split; [reflexivity | split; assumption].
Qed.

(** Under any sequence of [push] and [pop] calls made one after the other,
    in any order and through any number of wrap-arounds, the buffer does
    what a first-in first-out list bounded by [capacity_ - 1] records does:
    every call is defined, returns what the list returns, and the unread
    records afterwards are the list's. *)
Theorem ring_buffer_is_bounded_fifo rb q item (calls : list (ring_call T)) :
  queue_of rb q ->
  exists rb',
    ring_calls rb item calls
    = Some ((fifo_calls (capacity_ rb) q item calls).1.1,
            (fifo_calls (capacity_ rb) q item calls).1.2, rb')
    /\ queue_of rb' (fifo_calls (capacity_ rb) q item calls).2.
Proof.
  intros Hq.
  destruct (ring_calls_follow_fifo calls rb q item Hq) as (rb' & Hrun & _ & Hq').
  exists rb'. split; [exact Hrun | exact Hq'].
Qed.

End Model.

Lemma push_and_pop_write_disjoint_parts_witness :
  head_ (new_ring 0 4) = 0
  /\ tail_ (mkRing 4 [5; 0; 0; 0] 0 1) = 1.
Proof.
  destruct (push_and_pop_write_disjoint_parts (new_ring 0 4) 5 0)
    as (Hpush & _).
  destruct (push_and_pop_write_disjoint_parts (mkRing 4 [5; 0; 0; 0] 0 1) 5 0)
    as (_ & Hpop).
  destruct (Hpush true (mkRing 4 [5; 0; 0; 0] 0 1) eq_refl) as (_ & Hhead & _).
  destruct (Hpop true 5 (mkRing 4 [5; 0; 0; 0] 1 1) eq_refl) as (_ & Htail & _).
  split; [reflexivity | exact Htail].
Defined.


Lemma push_and_pop_keep_invariant_witness :
  exists ok rb', push (new_ring 0 4) 5 = Some (ok, rb') /\ ring_wf rb'.
Proof.
  destruct (push_and_pop_keep_invariant (new_ring 0 4) 5 0)
    as ((ok & rb' & Hpush & Hwf & _) & _).
  - unfold ring_wf, SIZE_MAX.
    repeat split; try reflexivity; vm_compute; discriminate.
  - exists ok, rb'. split; [exact Hpush | exact Hwf].
Defined.

Lemma capacity_one_holds_nothing_witness :
  push (new_ring 0 1) 5 = Some (false, new_ring 0 1).
Proof.
  apply (capacity_one_holds_nothing (new_ring 0 1) 5).
  - unfold ring_wf, SIZE_MAX.
    repeat split; try reflexivity; vm_compute; discriminate.
  - reflexivity.
Defined.

Lemma ring_buffer_is_bounded_fifo_witness :
  exists rb',
    ring_calls (new_ring 0 4) 0
      [CallPush 1; CallPush 2; CallPush 3; CallPush 4; CallPop; CallPush 4;
       CallPop; CallPop; CallPop; CallPop]
    = Some ([RetPush true; RetPush true; RetPush true; RetPush false;
             RetPop true 1; RetPush true; RetPop true 2; RetPop true 3;
             RetPop true 4; RetPop false 4], 4, rb')
    /\ queue_of rb' [].
Proof.
  apply (ring_buffer_is_bounded_fifo (new_ring 0 4) [] 0
           [CallPush 1; CallPush 2; CallPush 3; CallPush 4; CallPop;
            CallPush 4; CallPop; CallPop; CallPop; CallPop]).
  apply empty_queue_of; [| reflexivity].
  unfold ring_wf, SIZE_MAX.
  repeat split; try reflexivity; vm_compute; discriminate.
Defined.

End RingModel.

(** * Further properties of the capture engine *)

Module SnifferRuns.

Import Sniffer SnifferSpec.

Lemma run_app (evs1 evs2 : list event) : forall g,
  run g (evs1 ++ evs2) = run g evs1 ≫= fun g' => run g' evs2.
Proof.
  induction evs1 as [| ev evs1 IH]; intros g; cbn [app run]; [reflexivity |].
  destruct (step g ev) as [g1 |]; cbn; [apply IH | reflexivity].
Qed.

(** ** Starting *)

(** In every state the engine can reach, [start_capture_engine] returns 0
    when the thread could be launched and 2 when it could not, and never 1.
    In both cases it has cleared the stop flag and stored the destination
    pointer; it never touches the published index; it adds one capture
    loop, with index and counter 0, exactly when it returns 0. *)
Theorem start_in_reachable_state (evs : list event) (g : Engine)
    (launch_ok : bool) (name : string) (buffer : option (list C_PacketData)) :
  run init_engine evs = Some g ->
  let r := start_capture_engine launch_ok name buffer g in
  fst r = (if launch_ok then 0 else 2)
  /\ g_stop_capture (snd r) = false
  /\ g_shared_buffer (snd r) = buffer
  /\ get_write_index (snd r) = get_write_index g
  /\ workers (snd r)
     = (if launch_ok then workers g ++ [new_worker name] else workers g).
Proof.
  intros Hrun. cbn zeta.
  pose proof (run_leaves_handle_detached evs init_engine g eq_refl Hrun) as Hj.
  unfold start_capture_engine. rewrite Hj.
  destruct launch_ok; cbn; repeat split; reflexivity.
Qed.

Lemma start_in_reachable_state_witness :
  fst (start_capture_engine false "eth0" None
         (snd (start_capture_engine true "eth0" None init_engine)))
  = 2.
Proof.
  apply (start_in_reachable_state [Start true "eth0" None]
           (snd (start_capture_engine true "eth0" None init_engine))
           false "eth0" None).
  reflexivity.
Defined.

(** A stop request that a capture loop has not looked at yet is lost when
    [start_capture_engine] is called: after stop followed by start the flag
    is clear again, the old loop is still there, and its next turn finds
    no reason to return. *)
Theorem start_cancels_pending_stop (evs : list event) (g : Engine)
    (tid : nat) (w : Worker) (launch_ok : bool) (name : string)
    (buffer : option (list C_PacketData)) :
  run init_engine evs = Some g ->
  workers g !! tid = Some w ->
  finished w = false ->
  let g2 := snd (start_capture_engine launch_ok name buffer
                   (snd (stop_capture_engine g))) in
  g_stop_capture (snd (stop_capture_engine g)) = true
  /\ g_stop_capture g2 = false
  /\ workers g2 !! tid = Some w
  /\ forall (s : Sample) (g3 : Engine),
       step g2 (Turn tid s) = Some g3 ->
       exists w3, workers g3 !! tid = Some w3 /\ finished w3 = false.
Proof.
  intros Hrun Hw Hlive. cbn zeta.
  pose proof (run_leaves_handle_detached evs init_engine g eq_refl Hrun) as Hj.
  split; [reflexivity |].
  unfold start_capture_engine, stop_capture_engine.
  cbn [snd g_capture_thread]. rewrite Hj.
  set (g2 := snd (if launch_ok then _ else _)).
  assert (Hflag : g_stop_capture g2 = false)
    by (unfold g2; destruct launch_ok; reflexivity).
  assert (Hw2 : workers g2 !! tid = Some w).
  { unfold g2. destruct launch_ok; cbn; [| exact Hw].
    rewrite lookup_app_l; [exact Hw | apply (lookup_lt_Some _ _ _ Hw)]. }
  split; [exact Hflag |]. split; [exact Hw2 |].
  intros s g3 Hstep. cbn [step] in Hstep. rewrite Hw2 in Hstep.
  unfold capture_loop_turn in Hstep. rewrite Hlive, Hflag in Hstep.
  unfold capture_loop_body in Hstep.
  assert (Hlt : (tid < List.length (workers g2))%nat)
    by apply (lookup_lt_Some _ _ _ Hw2).
  destruct (g_shared_buffer g2) as [mem |].
  - destruct (0 <=? local_write_index w); [| discriminate Hstep].
    destruct (mem !! Z.to_nat (local_write_index w)); [| discriminate Hstep].
    cbn in Hstep. injection Hstep as <-. cbn [workers].
    eexists. split; [apply list_lookup_insert_eq; exact Hlt |].
    cbn. exact Hlive.
  - cbn in Hstep. injection Hstep as <-. cbn [workers].
    exists w. split; [apply list_lookup_insert_eq; exact Hlt | exact Hlive].
Qed.

Lemma start_cancels_pending_stop_witness :
  let g := snd (start_capture_engine true "eth0" None init_engine) in
  g_stop_capture
    (snd (start_capture_engine true "eth1" None (snd (stop_capture_engine g))))
  = false.
Proof.
  intros g.
  apply (start_cancels_pending_stop [Start true "eth0" None] g 0
           (new_worker "eth0") true "eth1" None); reflexivity.
Defined.

(** ** Stopping *)





(** ** One publication *)

Lemma publishing_turn (g : Engine) (tid : nat) (w : Worker)
    (mem : list C_PacketData) (slot : C_PacketData) (s : Sample) :
  workers g !! tid = Some w ->
  finished w = false ->
  g_stop_capture g = false ->
  g_shared_buffer g = Some mem ->
  0 <= local_write_index w < MAX_BUFFER_SLOTS ->
  mem !! Z.to_nat (local_write_index w) = Some slot ->
  step g (Turn tid s)
  = Some {| g_stop_capture := false;
            g_write_index := (local_write_index w + 1) mod MAX_BUFFER_SLOTS;
            g_shared_buffer :=
              Some (<[Z.to_nat (local_write_index w) :=
                        fill_slot slot s (wrap_uint32 (flow_counter w + 1))]>
                      mem);
            g_capture_thread := g_capture_thread g;
            workers :=
              <[tid := {| interface_name := interface_name w;
                          local_write_index :=
                            (local_write_index w + 1) mod MAX_BUFFER_SLOTS;
                          flow_counter := wrap_uint32 (flow_counter w + 1);
                          finished := false |}]> (workers g) |}.
Proof.
  intros Hw Hlive Hclear Hbuf Hrange Hslot.
  destruct (next_index_in_range _ Hrange) as (Hnext & _).
  cbn [step]. rewrite Hw. unfold capture_loop_turn, capture_loop_body.
  rewrite Hlive, Hclear, Hbuf.
  destruct (Z.leb_spec 0 (local_write_index w)) as [_ | ?]; [| lia].
  rewrite Hslot. cbn. rewrite Hnext, ?Hlive, ?Hclear. reflexivity.
Qed.

(** What one publication does.  A turn of a live loop, with the stop flag
    clear and a destination whose slot at the loop's index exists, writes
    that one slot: length and time from the sample, the flow hash from
    the incremented counter, the alert flag set when that counter is a
    multiple of 50, the data bytes untouched.  It publishes the loop's
    index advanced by 1 modulo [MAX_BUFFER_SLOTS].  Every other slot,
    every other loop, the stop flag and the thread handle are unchanged. *)
Theorem publication_writes_one_slot (g g' : Engine) (tid : nat) (w : Worker)
    (mem : list C_PacketData) (slot : C_PacketData) (s : Sample) :
  workers g !! tid = Some w ->
  finished w = false ->
  g_stop_capture g = false ->
  g_shared_buffer g = Some mem ->
  0 <= local_write_index w < MAX_BUFFER_SLOTS ->
  mem !! Z.to_nat (local_write_index w) = Some slot ->
  step g (Turn tid s) = Some g' ->
  get_write_index g' = (local_write_index w + 1) mod MAX_BUFFER_SLOTS
  /\ g_stop_capture g' = false
  /\ g_capture_thread g' = g_capture_thread g
  /\ (forall t : nat, t <> tid -> workers g' !! t = workers g !! t)
  /\ exists mem',
       g_shared_buffer g' = Some mem'
       /\ List.length mem' = List.length mem
       /\ mem' !! Z.to_nat (local_write_index w)
          = Some {| data := data slot;
                    length := drawn_length s;
                    timestamp := now_us s;
                    flow_hash := to_int32 ((flow_counter w + 1) mod 2 ^ 32);
                    is_alert := (flow_counter w + 1) mod 2 ^ 32 mod 50 =? 0 |}
       /\ forall k : nat,
            k <> Z.to_nat (local_write_index w) -> mem' !! k = mem !! k.
Proof.
  intros Hw Hlive Hclear Hbuf Hrange Hslot Hstep.
  rewrite (publishing_turn g tid w mem slot s Hw Hlive Hclear Hbuf Hrange Hslot)
    in Hstep.
  injection Hstep as <-. cbn.
  split; [reflexivity |]. split; [reflexivity |]. split; [reflexivity |].
  split.
  - intros t Ht. apply list_lookup_insert_ne. congruence.
  - eexists. split; [reflexivity |]. split; [apply length_insert |]. split.
    + apply list_lookup_insert_eq. apply (lookup_lt_Some _ _ _ Hslot).
    + intros k Hk. apply list_lookup_insert_ne. congruence.
Qed.

Lemma publication_writes_one_slot_witness :
  let s := {| now_us := 7; drawn_length := 100 |} in
  let slot := {| data := []; length := 0; timestamp := 0; flow_hash := 0;
                 is_alert := false |} in
  let g := snd (start_capture_engine true "eth0" (Some [slot; slot])
                  init_engine) in
  exists g', step g (Turn 0 s) = Some g' /\ get_write_index g' = 1.
Proof.
  intros s slot g. eexists. split; [vm_compute; reflexivity |].
  refine (proj1 (publication_writes_one_slot g _ 0 (new_worker "eth0")
                   [slot; slot] slot s _ _ _ _ _ _ _));
    try reflexivity.
  vm_compute. split; [discriminate | reflexivity].
Defined.

(** ** Destinations with room for every slot *)





(** ** Runs of one loop *)

Lemma turns_fill_slots (tid : nat) (ss : list Sample) :
  forall (g : Engine) (w : Worker) (i : nat) (c : Z)
         (mem : list C_PacketData),
    workers g !! tid = Some w ->
    finished w = false ->
    g_stop_capture g = false ->
    g_shared_buffer g = Some mem ->
    local_write_index w = Z.of_nat i mod MAX_BUFFER_SLOTS ->
    g_write_index g = Z.of_nat i mod MAX_BUFFER_SLOTS ->
    flow_counter w = c mod 2 ^ 32 ->
    Z.of_nat (i + List.length ss) <= MAX_BUFFER_SLOTS ->
    (i + List.length ss <= List.length mem)%nat ->
    exists g' w' mem',
      run g (turns tid ss) = Some g'
      /\ g_stop_capture g' = false
      /\ g_write_index g' = Z.of_nat (i + List.length ss) mod MAX_BUFFER_SLOTS
      /\ workers g' !! tid = Some w'
      /\ finished w' = false
      /\ local_write_index w'
         = Z.of_nat (i + List.length ss) mod MAX_BUFFER_SLOTS
      /\ flow_counter w' = (c + Z.of_nat (List.length ss)) mod 2 ^ 32
      /\ g_shared_buffer g' = Some mem'
      /\ List.length mem' = List.length mem
      /\ (forall (j : nat) (s : Sample),
            ss !! j = Some s ->
            exists slot,
              mem !! (i + j)%nat = Some slot
              /\ mem' !! (i + j)%nat
                 = Some (fill_slot slot s ((c + Z.of_nat j + 1) mod 2 ^ 32)))
      /\ (forall k : nat,
            (k < i \/ i + List.length ss <= k)%nat -> mem' !! k = mem !! k).
Proof.
  induction ss as [| s ss IH];
    intros g w i c mem Hw Hlive Hclear Hbuf Hloc Hidx Hcnt Hmax Hlen.
  - exists g, w, mem. cbn [turns map run List.length].
    rewrite Nat.add_0_r, Z.add_0_r.
    repeat split; try assumption; try reflexivity.
    intros j s Hj. rewrite lookup_nil in Hj. discriminate Hj.
  - cbn [List.length] in Hmax, Hlen. unfold MAX_BUFFER_SLOTS in *.
    assert (Hi : Z.of_nat i mod 1024 = Z.of_nat i) by (apply Z.mod_small; lia).
    rewrite Hi in Hloc, Hidx.
    destruct (lookup_lt_is_Some_2 mem i) as [slot Hslot]; [lia |].
    assert (Hstep := publishing_turn g tid w mem slot s Hw Hlive Hclear Hbuf).
    rewrite Hloc, Nat2Z.id in Hstep. unfold MAX_BUFFER_SLOTS in Hstep.
    specialize (Hstep ltac:(lia) Hslot).
    set (w1 := {| interface_name := interface_name w;
                  local_write_index := (Z.of_nat i + 1) mod 1024;
                  flow_counter := wrap_uint32 (flow_counter w + 1);
                  finished := false |}) in *.
    set (mem1 := <[i := fill_slot slot s (wrap_uint32 (flow_counter w + 1))]> mem)
      in *.
    set (g1 := {| g_stop_capture := false;
                  g_write_index := (Z.of_nat i + 1) mod 1024;
                  g_shared_buffer := Some mem1;
                  g_capture_thread := g_capture_thread g;
                  workers := <[tid := w1]> (workers g) |}) in *.
    assert (Hcnt1 : wrap_uint32 (flow_counter w + 1) = (c + 1) mod 2 ^ 32).
    { unfold wrap_uint32. rewrite Hcnt. apply Zplus_mod_idemp_l. }
    destruct (IH g1 w1 (S i) (c + 1) mem1)
      as (g' & w' & mem' & Hrun & Hclear' & Hidx' & Hw' & Hlive' & Hloc'
          & Hcnt' & Hbuf' & Hlen' & Hslots' & Hrest').
    { cbn. apply list_lookup_insert_eq. apply (lookup_lt_Some _ _ _ Hw). }
    { reflexivity. }
    { reflexivity. }
    { reflexivity. }
    { cbn. f_equal. lia. }
    { cbn. f_equal. lia. }
    { exact Hcnt1. }
    { lia. }
    { unfold mem1. rewrite length_insert. lia. }
    exists g', w', mem'. cbn [turns map run]. rewrite Hstep. cbn [mbind option_bind].
    fold (turns tid ss). cbn [List.length].
    replace (i + S (List.length ss))%nat with (S i + List.length ss)%nat by lia.
    split; [exact Hrun |]. split; [exact Hclear' |]. split; [exact Hidx' |].
    split; [exact Hw' |]. split; [exact Hlive' |]. split; [exact Hloc' |].
    split; [rewrite Hcnt'; f_equal; lia |]. split; [exact Hbuf' |].
    split; [rewrite Hlen'; apply length_insert |]. split.
    + intros [| j] s' Hj.
      * cbn in Hj. injection Hj as <-. exists slot.
        rewrite Nat.add_0_r. split; [exact Hslot |].
        rewrite Hrest' by lia. unfold mem1.
        rewrite list_lookup_insert_eq by apply (lookup_lt_Some _ _ _ Hslot).
        rewrite Hcnt1. do 2 f_equal. f_equal. lia.
      * cbn in Hj. destruct (Hslots' j s' Hj) as (slot' & Hold & Hnew).
        exists slot'.
        replace (i + S j)%nat with (S i + j)%nat by lia. split.
        -- unfold mem1 in Hold.
           rewrite list_lookup_insert_ne in Hold by lia. exact Hold.
        -- rewrite Hnew. do 2 f_equal. f_equal. lia.
    + intros k Hk. rewrite Hrest' by lia. unfold mem1.
      apply list_lookup_insert_ne. lia.
Qed.

(** The first lap of the first capture loop.  After a first start on a
    destination [mem], n turns with n at most [MAX_BUFFER_SLOTS] and at
    most the size of [mem] fill the slots 0 to n-1 in order: slot j takes
    length and time of the j-th sample, flow hash j+1 and the alert flag
    when j+1 is a multiple of 50, and keeps its data bytes; the slots from
    n on are untouched; the published index is n modulo
    [MAX_BUFFER_SLOTS]. *)
Theorem first_lap_fills_slots_in_order (name : string)
    (mem : list C_PacketData) (ss : list Sample) :
  Z.of_nat (List.length ss) <= MAX_BUFFER_SLOTS ->
  (List.length ss <= List.length mem)%nat ->
  exists g' mem',
    run init_engine (Start true name (Some mem) :: turns 0 ss) = Some g'
    /\ get_write_index g' = Z.of_nat (List.length ss) mod MAX_BUFFER_SLOTS
    /\ g_shared_buffer g' = Some mem'
    /\ List.length mem' = List.length mem
    /\ (forall (j : nat) (s : Sample),
          ss !! j = Some s ->
          exists slot,
            mem !! j = Some slot
            /\ mem' !! j
               = Some {| data := data slot;
                         length := drawn_length s;
                         timestamp := now_us s;
                         flow_hash := Z.of_nat j + 1;
                         is_alert := (Z.of_nat j + 1) mod 50 =? 0 |})
    /\ (forall k : nat, (List.length ss <= k)%nat -> mem' !! k = mem !! k).
Proof.
  intros Hmax Hlen.
  destruct (turns_fill_slots 0 ss
              (snd (start_capture_engine true name (Some mem) init_engine))
              (new_worker name) 0 0 mem)
    as (g' & w' & mem' & Hrun & _ & Hidx & _ & _ & _ & _ & Hbuf & Hlen'
        & Hslots & Hrest); try reflexivity; try assumption.
  exists g', mem'. cbn [run step mbind option_bind]. cbn [Nat.add] in *.
  split; [exact Hrun |]. split; [exact Hidx |]. split; [exact Hbuf |].
  split; [exact Hlen' |]. split.
  - intros j s Hj. destruct (Hslots j s Hj) as (slot & Hold & Hnew).
    exists slot. split; [exact Hold |]. rewrite Hnew.
    pose proof (lookup_lt_Some _ _ _ Hj) as Hjn.
    unfold MAX_BUFFER_SLOTS in Hmax.
    assert (Hsmall : (0 + Z.of_nat j + 1) mod 2 ^ 32 = Z.of_nat j + 1)
      by (apply Z.mod_small; lia).
    unfold fill_slot, to_int32. rewrite Hsmall.
    rewrite (Z.mod_small (Z.of_nat j + 1) (2 ^ 32)) by lia.
    destruct (Z.ltb_spec (Z.of_nat j + 1) (2 ^ 31)) as [_ | ?]; [| lia].
    reflexivity.
  - intros k Hk. apply Hrest. right. exact Hk.
Qed.

Lemma first_lap_fills_slots_in_order_witness :
  let slot := {| data := []; length := 0; timestamp := 0; flow_hash := 0;
                 is_alert := false |} in
  exists g' mem',
    run init_engine
        (Start true "eth0" (Some [slot; slot; slot])
         :: turns 0 [mkSample 7 100; mkSample 8 1500])
    = Some g'
    /\ get_write_index g' = 2
    /\ g_shared_buffer g' = Some mem'.
Proof.
  intros slot.
  destruct (first_lap_fills_slots_in_order "eth0" [slot; slot; slot]
              [mkSample 7 100; mkSample 8 1500])
    as (g' & mem' & Hrun & Hidx & Hbuf & _).
  - vm_compute. discriminate.
  - cbn. lia.
  - exists g', mem'. split; [exact Hrun |]. split; [exact Hidx | exact Hbuf].
Defined.

(** A destination with fewer than [MAX_BUFFER_SLOTS] slots is overrun: the
    loop does not know the size of the array it was given, so after as
    many publications as the array has slots the next turn accesses the
    slot past its end. *)
Theorem short_buffer_is_overrun (name : string) (mem : list C_PacketData)
    (ss : list Sample) :
  Z.of_nat (List.length mem) < MAX_BUFFER_SLOTS ->
  List.length ss = S (List.length mem) ->
  run init_engine (Start true name (Some mem) :: turns 0 ss) = None.
Proof.
  intros Hshort Hss.
  destruct ss as [| s0 ss0] using rev_ind; [discriminate Hss |]. clear IHss0.
  rewrite length_app in Hss. cbn [List.length] in Hss.
  assert (Hn : List.length ss0 = List.length mem) by lia.
  destruct (turns_fill_slots 0 ss0
              (snd (start_capture_engine true name (Some mem) init_engine))
              (new_worker name) 0 0 mem)
    as (g' & w' & mem' & Hrun & Hclear & _ & Hw' & Hlive & Hloc & _ & Hbuf
        & Hlen' & _); try reflexivity; try (cbn [Nat.add]; lia).
  cbn [Nat.add] in Hloc. unfold MAX_BUFFER_SLOTS in *.
  rewrite Z.mod_small in Hloc by lia.
  cbn [run step mbind option_bind]. unfold turns. rewrite map_app.
  rewrite run_app. fold (turns 0 ss0). rewrite Hrun.
  cbn [mbind option_bind map run step]. rewrite Hw'.
  unfold capture_loop_turn, capture_loop_body.
  rewrite Hlive, Hclear, Hbuf, Hloc.
  destruct (Z.leb_spec 0 (Z.of_nat (List.length ss0))) as [_ | ?]; [| lia].
  rewrite Nat2Z.id.
  rewrite (proj2 (lookup_ge_None mem' (List.length ss0))) by lia.
  reflexivity.
Qed.

Lemma short_buffer_is_overrun_witness :
  let slot := {| data := []; length := 0; timestamp := 0; flow_hash := 0;
                 is_alert := false |} in
  run init_engine
      (Start true "eth0" (Some [slot; slot])
       :: turns 0 [mkSample 7 100; mkSample 8 100; mkSample 9 100])
  = None.
Proof.
  intros slot.
  apply (short_buffer_is_overrun "eth0" [slot; slot]
           [mkSample 7 100; mkSample 8 100; mkSample 9 100]).
  - vm_compute. reflexivity.
  - reflexivity.
Defined.

Lemma turns_advance_index (tid : nat) (ss : list Sample) :
  forall (g : Engine) (w : Worker) (i c : Z) (mem : list C_PacketData),
    workers g !! tid = Some w ->
    finished w = false ->
    g_stop_capture g = false ->
    g_shared_buffer g = Some mem ->
    MAX_BUFFER_SLOTS <= Z.of_nat (List.length mem) ->
    local_write_index w = i mod MAX_BUFFER_SLOTS ->
    flow_counter w = c mod 2 ^ 32 ->
    exists g' w' mem',
      run g (turns tid ss) = Some g'
      /\ g_stop_capture g' = false
      /\ (ss <> [] ->
          g_write_index g'
          = (i + Z.of_nat (List.length ss)) mod MAX_BUFFER_SLOTS)
      /\ workers g' !! tid = Some w'
      /\ finished w' = false
      /\ local_write_index w'
         = (i + Z.of_nat (List.length ss)) mod MAX_BUFFER_SLOTS
      /\ flow_counter w' = (c + Z.of_nat (List.length ss)) mod 2 ^ 32
      /\ g_shared_buffer g' = Some mem'
      /\ List.length mem' = List.length mem.
Proof.
  induction ss as [| s ss IH];
    intros g w i c mem Hw Hlive Hclear Hbuf Hroom Hloc Hcnt.
  - exists g, w, mem. cbn [turns map run List.length]. rewrite !Z.add_0_r.
    repeat split; try assumption; try reflexivity.
    intros Hno. contradiction.
  - assert (Hrange : 0 <= local_write_index w < MAX_BUFFER_SLOTS).
    { rewrite Hloc. apply Z.mod_pos_bound. reflexivity. }
    destruct (lookup_lt_is_Some_2 mem (Z.to_nat (local_write_index w)))
      as [slot Hslot]; [lia |].
    pose proof (publishing_turn g tid w mem slot s Hw Hlive Hclear Hbuf
                  Hrange Hslot) as Hstep.
    assert (Hloc1 : (local_write_index w + 1) mod MAX_BUFFER_SLOTS
                    = (i + 1) mod MAX_BUFFER_SLOTS).
    { rewrite Hloc. apply Zplus_mod_idemp_l. }
    assert (Hcnt1 : wrap_uint32 (flow_counter w + 1) = (c + 1) mod 2 ^ 32).
    { unfold wrap_uint32. rewrite Hcnt. apply Zplus_mod_idemp_l. }
    rewrite Hloc1, Hcnt1 in Hstep.
    match type of Hstep with _ = Some ?g1 =>
      destruct (IH g1 {| interface_name := interface_name w;
                         local_write_index := (i + 1) mod MAX_BUFFER_SLOTS;
                         flow_counter := (c + 1) mod 2 ^ 32;
                         finished := false |}
                  (i + 1) (c + 1)
                  (<[Z.to_nat (local_write_index w) :=
                       fill_slot slot s ((c + 1) mod 2 ^ 32)]> mem))
        as (g' & w' & mem' & Hrun & Hclear' & Hidx' & Hw' & Hlive' & Hloc'
            & Hcnt' & Hbuf' & Hlen')
    end.
    { cbn. apply list_lookup_insert_eq. apply (lookup_lt_Some _ _ _ Hw). }
    { reflexivity. }
    { reflexivity. }
    { reflexivity. }
    { rewrite length_insert. exact Hroom. }
    { reflexivity. }
    { reflexivity. }
    exists g', w', mem'. cbn [turns map run]. rewrite Hstep.
    cbn [mbind option_bind]. fold (turns tid ss). cbn [List.length].
    replace (i + Z.of_nat (S (List.length ss)))
      with (i + 1 + Z.of_nat (List.length ss)) by lia.
    replace (c + Z.of_nat (S (List.length ss)))
      with (c + 1 + Z.of_nat (List.length ss)) by lia.
    split; [exact Hrun |]. split; [exact Hclear' |]. split.
    { intros _. destruct ss as [| s' ss'].
      - cbn in Hrun. injection Hrun as <-. cbn. f_equal. lia.
      - apply Hidx'. discriminate. }
    split; [exact Hw' |]. split; [exact Hlive' |]. split; [exact Hloc' |].
    split; [exact Hcnt' |]. split; [exact Hbuf' |].
    rewrite Hlen'. apply length_insert.
Qed.

(** The published index counts the publications of the running loop.  On a
    destination with at least [MAX_BUFFER_SLOTS] slots, after a first start
    and any number n of turns, through any number of laps, the
    published index is n modulo [MAX_BUFFER_SLOTS], the loop will write
    next at that slot, and its flow counter is n modulo 2^32. *)
Theorem published_index_counts_publications (name : string)
    (mem : list C_PacketData) (ss : list Sample) :
  MAX_BUFFER_SLOTS <= Z.of_nat (List.length mem) ->
  exists g' w',
    run init_engine (Start true name (Some mem) :: turns 0 ss) = Some g'
    /\ get_write_index g' = Z.of_nat (List.length ss) mod MAX_BUFFER_SLOTS
    /\ workers g' !! 0%nat = Some w'
    /\ finished w' = false
    /\ local_write_index w' = Z.of_nat (List.length ss) mod MAX_BUFFER_SLOTS
    /\ flow_counter w' = Z.of_nat (List.length ss) mod 2 ^ 32.
Proof.
  intros Hroom.
  destruct (turns_advance_index 0 ss
              (snd (start_capture_engine true name (Some mem) init_engine))
              (new_worker name) 0 0 mem)
    as (g' & w' & mem' & Hrun & _ & Hidx & Hw' & Hlive & Hloc & Hcnt & _);
    try reflexivity; try assumption.
  exists g', w'. cbn [run step mbind option_bind].
  rewrite !Z.add_0_l in *.
  split; [exact Hrun |]. split.
  { destruct ss as [| s ss]; [| apply Hidx; discriminate].
    cbn in Hrun. injection Hrun as <-. reflexivity. }
  split; [exact Hw' |]. split; [exact Hlive |]. split; [exact Hloc | exact Hcnt].
Qed.

Lemma published_index_counts_publications_witness :
  exists g' w',
    run init_engine
        (Start true "eth0" (Some zero_buffer)
         :: turns 0 (replicate 1030 (mkSample 7 100)))
    = Some g'
    /\ get_write_index g' = 6
    /\ workers g' !! 0%nat = Some w'
    /\ flow_counter w' = 1030.
Proof.
  destruct (published_index_counts_publications "eth0" zero_buffer
              (replicate 1030 (mkSample 7 100)))
    as (g' & w' & Hrun & Hidx & Hw' & _ & _ & Hcnt).
  - vm_compute. discriminate.
  - exists g', w'. split; [exact Hrun |].
    rewrite length_replicate in Hidx, Hcnt.
    split; [exact Hidx |]. split; [exact Hw' | exact Hcnt].
Defined.

End SnifferRuns.
